(** * YAML file discovery: the scanner's filters and directory walker

    A shallow embedding of [scanner/filters.py], [scanner/core.py] and the
    command of [scanner/cli.py].

    The program is written against Python's [pathlib].  Paths, the file
    system and the operations the scanner calls on them ([name], [suffix],
    [parents], [is_file], [is_symlink], [resolve], [iterdir], [rglob]) are
    modelled first; the two source modules follow, and then the properties
    of the scan. *)

From Stdlib Require Import String Ascii List Bool Arith Lia.
From Stdlib Require Import Sorting.Permutation Sorting.Sorted.
From Stdlib Require Import Structures.OrderedTypeEx.
From Stdlib Require Import DecimalString.
From stdpp Require Import base gmap sets list strings.

Import ListNotations.
Local Open Scope string_scope.
Local Open Scope list_scope.

(** ** Pure paths *)

(** An absolute POSIX path is the list of its components below the anchor
    [/]; the empty list is [/] itself.  Strings are byte strings (UTF-8):
    byte-wise comparison agrees with Python's code-point comparison, and
    the characters the filters look at are ASCII. *)
Definition Path := list string.

Module PurePath.

(** [PurePath.name]: the final component, empty for the anchor. *)
Definition name (p : Path) : string := List.last p "".

(** [PurePath.__truediv__] with a single component. *)
Definition joinpath (p : Path) (c : string) : Path := p ++ [c].

Fixpoint proper_prefixes (p : Path) : list Path :=
  match p with
  | [] => []
  | c :: q => [] :: List.map (cons c) (proper_prefixes q)
  end.

(** [PurePath.parents]: every logical ancestor, nearest first, ending
    with the anchor. *)
Definition parents (p : Path) : list Path := List.rev (proper_prefixes p).

(** [str.rfind(".")]: [None] stands for Python's [-1]. *)
Fixpoint rfind_dot (s : string) : option nat :=
  match s with
  | EmptyString => None
  | String c s' =>
      match rfind_dot s' with
      | Some i => Some (S i)
      | None => if Ascii.eqb c "."%char then Some 0 else None
      end
  end.

(** [PurePath.suffix]:
    [i = name.rfind('.'); name[i:] if 0 < i < len(name) - 1 else ''] *)
Definition suffix (p : Path) : string :=
  let nm := name p in
  match rfind_dot nm with
  | Some i =>
      if ((0 <? i) && (i <? String.length nm - 1))%nat
      then String.substring i (String.length nm - i) nm
      else ""
  | None => ""
  end.

Fixpoint join_parts (p : Path) : string :=
  match p with
  | [] => ""
  | [c] => c
  | c :: q => (c ++ "/" ++ join_parts q)%string
  end.

(** [str(path)] *)
Definition str (p : Path) : string := ("/" ++ join_parts p)%string.

(** [PurePath.__lt__] compares the sequences of parts, not the rendered
    strings; Python orders lists lexicographically, a proper prefix
    first. *)
Definition compare (a b : Path) : comparison := list_compare String.compare a b.

Definition ltb (a b : Path) : bool :=
  match compare a b with Lt => true | _ => false end.

Definition lt (a b : Path) : Prop := compare a b = Lt.

End PurePath.

(** [str.lower()] restricted to what the filter can observe: only the
    letters A-Z are mapped onto the ASCII letters a-z. *)
Definition lower_ascii (c : ascii) : ascii :=
  let n := nat_of_ascii c in
  if ((65 <=? n) && (n <=? 90))%nat then ascii_of_nat (n + 32) else c.

Fixpoint lower (s : string) : string :=
  match s with
  | EmptyString => EmptyString
  | String c s' => String (lower_ascii c) (lower s')
  end.

(** [str.startswith] *)
Definition startswith (s pre : string) : bool := String.prefix pre s.

(** ** scanner/filters.py *)

(** [return path.suffix.lower() in {".yaml", ".yml"}] *)
Definition is_yaml_file (path : Path) : bool :=
  let s := lower (PurePath.suffix path) in
  String.eqb s ".yaml" || String.eqb s ".yml".

(** [return path.name.startswith(".")] *)
Definition is_hidden_directory (path : Path) : bool :=
  startswith (PurePath.name path) ".".

(** ** Exceptions *)

(** The exception classes that reach the scanner; [except] clauses select by
    class.  The file-system layer raises [OSError] and its subclasses.
    [RecursionError] is a [RuntimeError], not an [OSError]: pathlib's
    recursive walk nests one generator for each directory level and the
    interpreter raises it when a tree is deeper than it lets calls nest. *)
Inductive exc_class :=
  | PermissionError
  | FileNotFoundError
  | NotADirectoryError
  | OSError
  | RecursionError.

Record exn := Exn { exc_cls : exc_class; exc_msg : string }.

(** [isinstance(e, C)] along the class hierarchy: every class is a subclass
    of itself; [PermissionError], [FileNotFoundError] and
    [NotADirectoryError] are subclasses of [OSError], [RecursionError] is
    not. *)
Definition isinstance (e : exn) (C : exc_class) : bool :=
  match C, exc_cls e with
  | OSError, RecursionError => false
  | OSError, _ => true
  | PermissionError, PermissionError => true
  | FileNotFoundError, FileNotFoundError => true
  | NotADirectoryError, NotADirectoryError => true
  | RecursionError, RecursionError => true
  | _, _ => false
  end.

(** The outcome of a call: it returns a value or raises. *)
Inductive outcome (A : Type) :=
  | Returned (a : A)
  | Raised (e : exn).
Arguments Returned {A} a.
Arguments Raised {A} e.

(** ** The file system seen through pathlib *)

(** A directory tree.  [Dir (Some e) _] is a directory at which an
    enumeration raises [e]: the error of [os.listdir] and [os.scandir] when
    its entries cannot be read (EACCES, EIO, ...) or, for a directory that
    lies deeper than the interpreter lets the recursive walk nest, the
    [RecursionError] of that walk.  What becomes of the exception is the
    business of the enumeration: [iterdir] lets it through, [rglob] absorbs
    a [PermissionError].  [Unstatable e] is an entry that its directory lists
    but on which [stat] and [lstat] raise [e] (an error pathlib does not
    ignore, such as EACCES).  A symbolic link stores its target as an
    absolute path. *)
#[warnings="-register-all"]
Inductive node :=
  | File
  | Symlink (target : Path)
  | Dir (listing : option exn) (entries : list (string * node))
  | Unstatable (err : exn).

Fixpoint assoc (c : string) (entries : list (string * node)) : option node :=
  match entries with
  | [] => None
  | (c', n) :: rest => if String.eqb c c' then Some n else assoc c rest
  end.

(** The kernel gives up with ELOOP after this many links in one lookup. *)
Definition MAXSYMLINKS : nat := 40.

(** The result of a path lookup: the node and the canonical path it was
    found at, an errno that pathlib ignores (ENOENT, ENOTDIR, ELOOP), or
    an error that it re-raises. *)
Inductive lookup_result :=
  | Found (real : Path) (n : node)
  | Ignored
  | Failed (e : exn).

(** Path resolution from the root [fs]: [cur] is the node reached at the
    canonical path [real], [rest] the components still to walk.  Links met
    on the way are followed; the final component is followed only when
    [follow] is set ([stat] against [lstat]). *)
Fixpoint walk (fuel : nat) (follow : bool) (fs : node)
    (real : Path) (cur : node) (rest : list string) {struct fuel} : lookup_result :=
  (fix go (real : Path) (cur : node) (rest : list string) {struct rest} : lookup_result :=
     match rest with
     | [] => Found real cur
     | c :: rest' =>
         match cur with
         | Dir _ entries =>
             match assoc c entries with
             | None => Ignored
             | Some (Unstatable e) => Failed e
             | Some (Symlink target) =>
                 match rest', follow with
                 | [], false => Found (real ++ [c]) (Symlink target)
                 | _, _ =>
                     match fuel with
                     | O => Ignored
                     | S fuel' => walk fuel' follow fs [] fs (target ++ rest')
                     end
                 end
             | Some n => go (real ++ [c]) n rest'
             end
         | _ => Ignored
         end
     end) real cur rest.

Definition stat (fs : node) (p : Path) : lookup_result :=
  walk MAXSYMLINKS true fs [] fs p.

Definition lstat (fs : node) (p : Path) : lookup_result :=
  walk MAXSYMLINKS false fs [] fs p.

(** [Path.is_file()]: true also for a link to a regular file; ignored
    errnos give [False], other errors are re-raised. *)
Definition is_file (fs : node) (p : Path) : outcome bool :=
  match stat fs p with
  | Found _ File => Returned true
  | Found _ _ => Returned false
  | Ignored => Returned false
  | Failed e => Raised e
  end.

(** [Path.is_dir()] *)
Definition is_dir (fs : node) (p : Path) : outcome bool :=
  match stat fs p with
  | Found _ (Dir _ _) => Returned true
  | Found _ _ => Returned false
  | Ignored => Returned false
  | Failed e => Raised e
  end.

(** [Path.exists()] *)
Definition exists_ (fs : node) (p : Path) : outcome bool :=
  match stat fs p with
  | Found _ _ => Returned true
  | Ignored => Returned false
  | Failed e => Raised e
  end.

(** [Path.is_symlink()] *)
Definition is_symlink (fs : node) (p : Path) : outcome bool :=
  match lstat fs p with
  | Found _ (Symlink _) => Returned true
  | Found _ _ => Returned false
  | Ignored => Returned false
  | Failed e => Raised e
  end.

(** [Path.resolve()]: the canonical path.  The scanner resolves a path only
    after [is_file] or [is_dir] succeeded on it, so the lookup is [Found];
    elsewhere the path is returned as given. *)
Definition resolve (fs : node) (p : Path) : Path :=
  match stat fs p with
  | Found real _ => real
  | _ => p
  end.

(** *** Generators *)

(** A generator run to its end: the values it yields, then either normal
    exhaustion or the exception that ended it. *)
Record gen (A : Type) := Gen { yielded : list A; exit : option exn }.
Arguments Gen {A} yielded exit.
Arguments yielded {A} g.
Arguments exit {A} g.

Definition gen_raise {A} (e : exn) : gen A := Gen [] (Some e).
Definition gen_yield_all {A} (l : list A) : gen A := Gen l None.

(** [yield from g1; yield from g2]: nothing of [g2] runs once [g1] raised. *)
Definition gen_seq {A} (g1 g2 : gen A) : gen A :=
  match exit g1 with
  | Some e => g1
  | None => Gen (yielded g1 ++ yielded g2) (exit g2)
  end.

Definition children (p : Path) (entries : list (string * node)) : list Path :=
  List.map (fun e => PurePath.joinpath p (fst e)) entries.

(** [Path.iterdir()]: [os.listdir] reads the whole directory first, so a
    failure yields nothing. *)
Definition iterdir (fs : node) (p : Path) : gen Path :=
  match stat fs p with
  | Found _ (Dir None entries) => gen_yield_all (children p entries)
  | Found _ (Dir (Some e) _) => gen_raise e
  | Found _ _ => gen_raise (Exn NotADirectoryError "Not a directory")
  | Ignored => gen_raise (Exn FileNotFoundError "No such file or directory")
  | Failed e => gen_raise e
  end.

(** The clause [except PermissionError: return] that ends each selector of
    pathlib (Python 3.11): a [PermissionError] ends the generator normally,
    any other exception goes on to the caller. *)
Definition except_PermissionError_return {A} (e : exn) : gen A :=
  if isinstance e PermissionError then gen_yield_all [] else gen_raise e.

(** [Path.rglob("*")] below a directory node at path [p], as the selectors
    [_RecursiveWildcardSelector] and [_WildcardSelector] of Python 3.11 run
    it.  The entries of the directory are yielded first; then
    [_iterate_directories] goes through them in order and descends into
    each entry that is a real directory, never into a link.  Both scans of
    the directory sit under [except PermissionError: return]: a directory
    whose listing is denied yields nothing and ends normally, and the walk
    goes on with the next directory.  For a link, [entry.is_dir()] stats the
    target; an error it does not ignore is raised inside the same [try], so
    a [PermissionError] ends the descent into the remaining entries of this
    directory.  Any other exception propagates to the caller of [rglob]. *)
Fixpoint rglob_node (fs : node) (p : Path) (n : node) {struct n} : gen Path :=
  match n with
  | Dir (Some e) _ => except_PermissionError_return e
  | Dir None entries =>
      gen_seq (gen_yield_all (children p entries))
        ((fix subdirs (es : list (string * node)) : gen Path :=
            match es with
            | [] => gen_yield_all []
            | (c, child) :: es' =>
                match child with
                | Dir _ _ =>
                    gen_seq (rglob_node fs (PurePath.joinpath p c) child) (subdirs es')
                | Symlink _ =>
                    match is_dir fs (PurePath.joinpath p c) with
                    | Raised e => except_PermissionError_return e
                    | Returned _ => subdirs es'
                    end
                | _ => subdirs es'
                end
            end) entries)
  | _ => gen_yield_all []
  end.

(** [Path.rglob("*")]: [select_from] asks [is_dir] of the root outside every
    [try], and selects nothing from a path that is not a directory. *)
Definition rglob (fs : node) (p : Path) : gen Path :=
  match stat fs p with
  | Found _ (Dir l entries) => rglob_node fs p (Dir l entries)
  | Found _ _ => gen_yield_all []
  | Ignored => gen_yield_all []
  | Failed e => gen_raise e
  end.

(** ** scanner/core.py *)

Inductive Format := Json | Human.
Inductive Verbosity := Quiet | Info | Verbose.

Record ScanOptions := {
  input_dir : Path;
  recursive : bool;
  format : Format;
  verbosity : Verbosity
}.

(** The outcome of constructing [ScanOptions]: the validated model, the
    validator's [ValueError], or an error of the file system. *)
Inductive validation :=
  | Valid (options : ScanOptions)
  | ValueError (msg : string)
  | ValidationFailed (e : exn).

(** [validate_directory_exists] *)
Definition validate_directory_exists (fs : node) (v : Path) : outcome Path + string :=
  match exists_ fs v with
  | Raised e => inl (Raised e)
  | Returned false => inr ("Directory does not exist: " ++ PurePath.str v)%string
  | Returned true =>
      match is_dir fs v with
      | Raised e => inl (Raised e)
      | Returned false => inr ("Path is not a directory: " ++ PurePath.str v)%string
      | Returned true => inl (Returned (resolve fs v))
      end
  end.

(** [ScanOptions(input_dir=..., recursive=..., format=..., verbosity=...)] *)
Definition new_ScanOptions (fs : node) (dir : Path) (rec : bool)
    (fmt : Format) (verb : Verbosity) : validation :=
  match validate_directory_exists fs dir with
  | inl (Returned d) =>
      Valid {| input_dir := d; recursive := rec; format := fmt; verbosity := verb |}
  | inl (Raised e) => ValidationFailed e
  | inr msg => ValueError msg
  end.

Record ScanResult := {
  files : list Path;
  errors : list (Path * string)
}.

Definition count (r : ScanResult) : nat := List.length (files r).
Definition has_errors (r : ScanResult) : bool := (0 <? List.length (errors r))%nat.
Definition to_json_array (r : ScanResult) : list string := List.map PurePath.str (files r).

(** *** The scan's mutable state *)

(** [scan_directory] mutates [result.files], [result.errors] and the local
    set [seen_files] in place; what was appended before an exception is
    still there when the handler runs. *)
Record scan_state := {
  result : ScanResult;
  seen_files : gset Path
}.

(** A statement: from a state to the state it leaves and how it ended. *)
Definition stmt (A : Type) : Type := scan_state -> scan_state * outcome A.

Definition ret {A} (a : A) : stmt A := fun st => (st, Returned a).

Definition bind {A B} (m : stmt A) (k : A -> stmt B) : stmt B :=
  fun st =>
    match m st with
    | (st', Returned a) => k a st'
    | (st', Raised e) => (st', Raised e)
    end.

Notation "'let!' x ':=' m 'in' k" := (bind m (fun x => k))
  (at level 10, x name, m at level 200, k at level 200, only parsing).

(** A call into the file-system layer: no effect on the scan's state. *)
Definition call {A} (o : outcome A) : stmt A := fun st => (st, o).

(** [seen_files.add(resolved)] *)
Definition seen_add (p : Path) : stmt unit :=
  fun st => ({| result := result st; seen_files := {[ p ]} ∪ seen_files st |}, Returned tt).

(** [result.files.append(resolved)] *)
Definition files_append (p : Path) : stmt unit :=
  fun st =>
    ({| result := {| files := files (result st) ++ [p]; errors := errors (result st) |};
        seen_files := seen_files st |}, Returned tt).

(** [result.errors.append((path, msg))] *)
Definition errors_append (p : Path) (msg : string) : stmt unit :=
  fun st =>
    ({| result := {| files := files (result st); errors := errors (result st) ++ [(p, msg)] |};
        seen_files := seen_files st |}, Returned tt).

(** [resolved not in seen_files] *)
Definition not_seen (p : Path) : stmt bool :=
  fun st => (st, Returned (bool_decide (p ∉ seen_files st))).

(** [for item in items: body(item)] over the values a generator yields. *)
Fixpoint for_each (items : list Path) (body : Path -> stmt unit) : stmt unit :=
  match items with
  | [] => ret tt
  | item :: items' => let! _ := body item in for_each items' body
  end.

(** [for item in g: body(item)]: the generator's own exception surfaces
    once the values yielded before it have been consumed. *)
Definition for_in (g : gen Path) (body : Path -> stmt unit) : stmt unit :=
  let! _ := for_each (yielded g) body in
  match exit g with
  | Some e => call (Raised e)
  | None => ret tt
  end.

(** [try: body  except C1 as e: h1(e)  except C2 as e: h2(e) ...]: the first
    clause whose class the exception is an instance of handles it; an
    exception no clause matches propagates. *)
Fixpoint select_handler (e : exn) (handlers : list (exc_class * (exn -> stmt unit)))
    : option (exn -> stmt unit) :=
  match handlers with
  | [] => None
  | (C, h) :: rest => if isinstance e C then Some h else select_handler e rest
  end.

Definition try_except (body : stmt unit)
    (handlers : list (exc_class * (exn -> stmt unit))) : stmt unit :=
  fun st =>
    match body st with
    | (st', Returned a) => (st', Returned a)
    | (st', Raised e) =>
        match select_handler e handlers with
        | Some h => h e st'
        | None => (st', Raised e)
        end
    end.

(** *** Sorting *)

(** [list.sort()] is a stable comparison sort that only asks [<]; as a
    model, stable insertion from the left. *)
Fixpoint insert_sorted (x : Path) (l : list Path) : list Path :=
  match l with
  | [] => [x]
  | y :: l' => if PurePath.ltb x y then x :: y :: l' else y :: insert_sorted x l'
  end.

Definition sort (l : list Path) : list Path :=
  List.fold_left (fun acc x => insert_sorted x acc) l [].

(** [result.files.sort()] *)
Definition files_sort : stmt unit :=
  fun st =>
    ({| result := {| files := sort (files (result st)); errors := errors (result st) |};
        seen_files := seen_files st |}, Returned tt).

(** *** scan_directory *)

(** The body of the recursive loop (core.py, lines 84-94). *)
Definition recursive_body (fs : node) (item : Path) : stmt unit :=
  if List.existsb is_hidden_directory (PurePath.parents item) then ret tt
  else
    let! link := call (is_symlink fs item) in
    if link then ret tt
    else
      let! reg := call (is_file fs item) in
      if reg && is_yaml_file item then
        let resolved := resolve fs item in
        let! fresh := not_seen resolved in
        if fresh then (let! _ := seen_add resolved in files_append resolved)
        else ret tt
      else ret tt.

(** The body of the non-recursive loop (core.py, lines 98-102). *)
Definition top_level_body (fs : node) (item : Path) : stmt unit :=
  let! reg := call (is_file fs item) in
  if reg && is_yaml_file item then
    let resolved := resolve fs item in
    let! fresh := not_seen resolved in
    if fresh then (let! _ := seen_add resolved in files_append resolved)
    else ret tt
  else ret tt.

(** The statements under [try:]. *)
Definition scan_loop (fs : node) (options : ScanOptions) : stmt unit :=
  if recursive options
  then for_in (rglob fs (input_dir options)) (recursive_body fs)
  else for_in (iterdir fs (input_dir options)) (top_level_body fs).

Definition on_permission_error (options : ScanOptions) (e : exn) : stmt unit :=
  errors_append (input_dir options) ("Permission denied: " ++ exc_msg e)%string.

Definition on_os_error (options : ScanOptions) (e : exn) : stmt unit :=
  errors_append (input_dir options) ("OS error: " ++ exc_msg e)%string.

Definition initial_state : scan_state :=
  {| result := {| files := []; errors := [] |}; seen_files := ∅ |}.

Definition scan_directory (fs : node) (options : ScanOptions) : outcome ScanResult :=
  let program :=
    let! _ := try_except (scan_loop fs options)
                [ (PermissionError, on_permission_error options);
                  (OSError, on_os_error options) ] in
    files_sort in
  match program initial_state with
  | (st, Returned _) => Returned (result st)
  | (_, Raised e) => Raised e
  end.

(** ** scanner/cli.py *)















(** ** Vocabulary of the properties *)

(** What the specification calls the extension test: the name is a
    non-empty stem followed by an extension that reads [.yaml] or [.yml]
    when case is ignored. *)
Definition has_yaml_extension (nm : string) : Prop :=
  exists stem ext, nm = (stem ++ ext)%string /\ stem <> ""
                   /\ (lower ext = ".yaml" \/ lower ext = ".yml").

(** [a] occurs at an earlier position of [l] than [b]. *)
Definition precedes (l : list Path) (a b : Path) : Prop :=
  exists i j, i < j /\ l !! i = Some a /\ l !! j = Some b.

(** What a loop body decides about an entry, as a value: the entry is
    recorded, passed over, or the decision raises. *)
Definition select_recursive (fs : node) (item : Path) : outcome bool :=
  if List.existsb is_hidden_directory (PurePath.parents item) then Returned false
  else
    match is_symlink fs item with
    | Raised e => Raised e
    | Returned true => Returned false
    | Returned false =>
        match is_file fs item with
        | Raised e => Raised e
        | Returned reg => Returned (reg && is_yaml_file item)
        end
    end.

Definition select_top_level (fs : node) (item : Path) : outcome bool :=
  match is_file fs item with
  | Raised e => Raised e
  | Returned reg => Returned (reg && is_yaml_file item)
  end.

(** The effect of the four statements that record a resolved path. *)
Definition record (p : Path) (st : scan_state) : scan_state :=
  if bool_decide (p ∉ seen_files st)
  then {| result := {| files := files (result st) ++ [p]; errors := errors (result st) |};
          seen_files := {[ p ]} ∪ seen_files st |}
  else st.

(** The traversal, the loop body and the selection of the mode chosen by
    the options. *)
Definition traversal (fs : node) (options : ScanOptions) : gen Path :=
  if recursive options then rglob fs (input_dir options)
  else iterdir fs (input_dir options).

Definition loop_body (fs : node) (options : ScanOptions) : Path -> stmt unit :=
  if recursive options then recursive_body fs else top_level_body fs.

Definition selects (fs : node) (options : ScanOptions) : Path -> outcome bool :=
  if recursive options then select_recursive fs else select_top_level fs.

(** The message the handlers attach to the root directory. *)
Definition describe (e : exn) : string :=
  if isinstance e PermissionError then ("Permission denied: " ++ exc_msg e)%string
  else ("OS error: " ++ exc_msg e)%string.

Definition reported (options : ScanOptions) (out : outcome unit) : list (Path * string) :=
  match out with
  | Returned _ => []
  | Raised e => [(input_dir options, describe e)]
  end.

(** The invariant of the accumulator: [seen_files] is the set of the paths
    in [result.files], none of which is repeated. *)
Definition accumulator_ok (st : scan_state) : Prop :=
  NoDup (files (result st))
  /\ forall p : Path, p ∈ seen_files st <-> p ∈ files (result st).

(** Descent along [p] from the node [cur] through real directories only: no
    link is followed. *)
Fixpoint descend (cur : node) (p : list string) : option node :=
  match p with
  | [] => Some cur
  | c :: p' =>
      match cur with
      | Dir _ entries =>
          match assoc c entries with
          | Some n => descend n p'
          | None => None
          end
      | _ => None
      end
  end.

(** [reaches n rel child]: below the directory [n], the relative path [rel]
    leads to the entry [child] through real directories only. *)
Inductive reaches : node -> list string -> node -> Prop :=
  | reaches_entry (l : option exn) (entries : list (string * node))
      (c : string) (child : node) :
      (c, child) ∈ entries -> reaches (Dir l entries) [c] child
  | reaches_step (l : option exn) (entries : list (string * node))
      (c : string) (l' : option exn) (es' : list (string * node))
      (rel : list string) (child : node) :
      (c, Dir l' es') ∈ entries ->
      reaches (Dir l' es') rel child ->
      reaches (Dir l entries) (c :: rel) child.

(** The descent of [_iterate_directories] through the entries [es] of the
    directory at [p], in order. *)
Definition rglob_subdirs (fs : node) (p : Path) (es : list (string * node)) : gen Path :=
  (fix subdirs (es : list (string * node)) : gen Path :=
     match es with
     | [] => gen_yield_all []
     | (c, child) :: es' =>
         match child with
         | Dir _ _ =>
             gen_seq (rglob_node fs (PurePath.joinpath p c) child) (subdirs es')
         | Symlink _ =>
             match is_dir fs (PurePath.joinpath p c) with
             | Raised e => except_PermissionError_return e
             | Returned _ => subdirs es'
             end
         | _ => subdirs es'
         end
     end) es.

(** The scan lets an exception through: one that is not an [OSError]. *)
Definition escapes (fs : node) (options : ScanOptions) : Prop :=
  exists e, scan_directory fs options = Raised e /\ isinstance e OSError = false.

(** Induction on the directory tree, with the hypothesis available for
    every entry of a directory. *)
Section NodeInduction.

Variable P : node -> Prop.
Hypothesis HFile : P File.
Hypothesis HSymlink : forall target, P (Symlink target).
Hypothesis HUnstatable : forall e, P (Unstatable e).
Hypothesis HDir : forall l entries,
  Forall (fun e => P (snd e)) entries -> P (Dir l entries).

Fixpoint node_induction (n : node) : P n :=
  match n with
  | File => HFile
  | Symlink target => HSymlink target
  | Unstatable e => HUnstatable e
  | Dir l entries =>
      HDir l entries
        ((fix all (es : list (string * node)) : Forall (fun e => P (snd e)) es :=
            match es with
            | [] => List.Forall_nil _
            | e :: es' =>
                @List.Forall_cons _ (fun e => P (snd e)) e es'
                  (match e return P (snd e) with (_, child) => node_induction child end)
                  (all es')
            end) entries)
  end.

End NodeInduction.

(** Every directory of the tree names each of its entries once. *)
Fixpoint unique_names (n : node) : Prop :=
  match n with
  | Dir _ entries =>
      NoDup (List.map fst entries)
      /\ (fix all (es : list (string * node)) : Prop :=
            match es with
            | [] => True
            | (_, child) :: es' => unique_names child /\ all es'
            end) entries
  | _ => True
  end.

(** No permission is denied in the tree: no listing of a directory and no
    [stat] of an entry raises a [PermissionError]. *)
Fixpoint permitted (n : node) : Prop :=
  match n with
  | Dir l entries =>
      (forall e, l = Some e -> isinstance e PermissionError = false)
      /\ (fix all (es : list (string * node)) : Prop :=
            match es with
            | [] => True
            | (_, child) :: es' => permitted child /\ all es'
            end) entries
  | Unstatable e => isinstance e PermissionError = false
  | _ => True
  end.

(** A regular file or a directory: what [stat] can report. *)
Definition plain (n : node) : bool :=
  match n with
  | File | Dir _ _ => true
  | _ => false
  end.

(** A name a directory entry can bear: not empty, without a slash. *)
Fixpoint has_slash (s : string) : bool :=
  match s with
  | EmptyString => false
  | String c s' => Ascii.eqb c "/"%char || has_slash s'
  end.

Definition valid_name (c : string) : Prop := c <> "" /\ has_slash c = false.

(** Every entry of the tree bears such a name. *)
Fixpoint valid_names (n : node) : Prop :=
  match n with
  | Dir _ entries =>
      (fix all (es : list (string * node)) : Prop :=
         match es with
         | [] => True
         | (c, child) :: es' => valid_name c /\ valid_names child /\ all es'
         end) entries
  | _ => True
  end.

(** ** Example file systems *)

Definition options_for (d : Path) (rec : bool) : ScanOptions :=
  {| input_dir := d; recursive := rec; format := Human; verbosity := Info |}.

(** [/r] with two YAML files and a text file. *)
Definition fs_flat : node :=
  Dir None [("r", Dir None [("app1.yaml", File); ("app2.yml", File); ("config.txt", File)])].

(** [/r] with files at depth 0, 1 and 2 and a [.git] directory. *)
Definition fs_nested : node :=
  Dir None
    [("r", Dir None
        [("app1.yaml", File);
         ("cluster1", Dir None
            [("app2.yaml", File);
             ("production", Dir None [("app3.yml", File)])]);
         (".git", Dir None [("config.yaml", File)])])].

(** [/r] whose subdirectory [sub] holds a link back to [/r], next to a link
    [loop] to [/r] itself and a link to a file. *)
Definition fs_cycle : node :=
  Dir None
    [("r", Dir None
        [("a.yaml", File);
         ("loop", Symlink ["r"]);
         ("alias.yaml", Symlink ["r"; "a.yaml"]);
         ("sub", Dir None [("b.yml", File); ("back", Symlink ["r"])])])].

(** A root directory below a hidden directory. *)
Definition fs_hidden_root : node :=
  Dir None
    [("home", Dir None
        [("u", Dir None
            [(".cfg", Dir None
                [("app.yaml", File);
                 ("apps", Dir None [("web.yml", File)])])])])].

(** A file and a directory whose names differ by the extension. *)
Definition fs_order : node :=
  Dir None [("r", Dir None [("a.yaml", File); ("a", Dir None [("x.yaml", File)])])].

(** A root directory whose listing is denied. *)
Definition fs_denied : node :=
  Dir None [("r", Dir (Some (Exn PermissionError "[Errno 13] Permission denied: '/r'"))
                    [("app.yaml", File)])].

(** The tree of [test_permission_errors_with_partial_results]: a directory
    without permissions, listed first, beside one that can be read. *)
Definition fs_restricted : node :=
  Dir None
    [("r", Dir None
        [("restricted",
          Dir (Some (Exn PermissionError "[Errno 13] Permission denied: '/r/restricted'"))
            [("app2.yaml", Unstatable (Exn PermissionError "[Errno 13] Permission denied: '/r/restricted/app2.yaml'"))]);
         ("accessible", Dir None [("app1.yaml", File)])])].

(** A link into a directory without permissions, between two directories
    that can be read. *)
Definition fs_link_denied : node :=
  Dir None
    [("r", Dir None
        [("a", Dir None [("a.yaml", File)]);
         ("link", Symlink ["r"; "locked"; "x"]);
         ("locked",
          Dir (Some (Exn PermissionError "[Errno 13] Permission denied: '/r/locked'"))
            [("x", Unstatable (Exn PermissionError "[Errno 13] Permission denied: '/r/locked/x'"))]);
         ("z", Dir None [("z.yaml", File)])])].


(** A tree deeper than the interpreter lets the walk nest: the walk raises
    where it would enter the directory [deep]. *)
Definition fs_too_deep : node :=
  Dir None
    [("r", Dir None
        [("a.yaml", File);
         ("deep", Dir (Some (Exn RecursionError "maximum recursion depth exceeded")) [])])].

(** A subdirectory whose listing fails, between two others. *)
Definition fs_deep_fault : node :=
  Dir None
    [("r", Dir None
        [("a.yaml", File);
         ("bad", Dir None
            [("b.yaml", File);
             ("worse", Dir (Some (Exn OSError "[Errno 5] Input/output error: '/r/bad/worse'")) [])]);
         ("z", Dir None [("late.yaml", File)])])].

(** A file named [.yaml] with a link to it under a qualifying name. *)
Definition fs_dotfile_link : node :=
  Dir None [("r", Dir None [(".yaml", File); ("link.yaml", Symlink ["r"; ".yaml"])])].


(** * Properties *)

(** ** The filters *)

Section Filters.

Lemma name_joinpath (d : Path) (c : string) :
  PurePath.name (PurePath.joinpath d c) = c.
Proof. apply last_last. Qed.

Lemma lower_ascii_dot_inv (c : ascii) : lower_ascii c = "."%char -> c = "."%char.
Proof.
  destruct c as [[] [] [] [] [] [] [] []]; vm_compute; intros H;
    try reflexivity; discriminate H.
Qed.

Lemma rfind_dot_lower_None (s : string) :
  PurePath.rfind_dot (lower s) = None -> PurePath.rfind_dot s = None.
Proof.
  induction s as [|c s IH]; simpl; [reflexivity|].
  destruct (PurePath.rfind_dot (lower s)); [discriminate|].
  rewrite IH by reflexivity.
  destruct (Ascii.eqb_spec c "."%char) as [->|Hc]; [vm_compute; discriminate | reflexivity].
Qed.

Lemma rfind_dot_app_dot (pre post : string) :
  PurePath.rfind_dot post = None ->
  PurePath.rfind_dot (pre ++ String "."%char post)%string = Some (String.length pre).
Proof.
  intros H. induction pre as [|c pre IH]; simpl.
  - rewrite H. reflexivity.
  - rewrite IH. reflexivity.
Qed.

Lemma rfind_dot_Some (s : string) (i : nat) :
  PurePath.rfind_dot s = Some i ->
  exists pre post, s = (pre ++ String "."%char post)%string
                   /\ String.length pre = i /\ PurePath.rfind_dot post = None.
Proof.
  revert i. induction s as [|c s IH]; simpl; intros i H; [discriminate|].
  destruct (PurePath.rfind_dot s) as [j|] eqn:E.
  - injection H as <-. destruct (IH j eq_refl) as (pre & post & -> & <- & Hp).
    exists (String c pre), post. auto.
  - destruct (Ascii.eqb_spec c "."%char) as [->|Hc]; [|discriminate].
    injection H as <-. exists "", s. auto.
Qed.

Lemma substring_all (t : string) : String.substring 0 (String.length t) t = t.
Proof. induction t as [|c t IH]; simpl; [reflexivity | now rewrite IH]. Qed.

Lemma substring_drop (pre t : string) :
  String.substring (String.length pre) (String.length t) (pre ++ t)%string = t.
Proof. induction pre as [|c pre IH]; simpl; [apply substring_all | exact IH]. Qed.

Lemma length_append (s t : string) :
  String.length (s ++ t)%string = String.length s + String.length t.
Proof. induction s as [|c s IH]; simpl; [reflexivity | now rewrite IH]. Qed.

(** The suffix of a name [stem.ext] with a non-empty stem and a non-empty
    dot-free [ext]. *)
Lemma suffix_stem_ext (p : Path) (stem ext : string) :
  PurePath.name p = (stem ++ String "."%char ext)%string ->
  stem <> "" -> ext <> "" -> PurePath.rfind_dot ext = None ->
  PurePath.suffix p = String "."%char ext.
Proof.
  intros Hn Hs He Hd. unfold PurePath.suffix. rewrite Hn.
  rewrite (rfind_dot_app_dot stem ext Hd).
  rewrite length_append. simpl String.length.
  assert (0 < String.length stem) by (destruct stem; [congruence | simpl; lia]).
  assert (0 < String.length ext) by (destruct ext; [congruence | simpl; lia]).
  replace (0 <? String.length stem)%nat with true by (symmetry; apply Nat.ltb_lt; lia).
  replace (String.length stem <? String.length stem + S (String.length ext) - 1)%nat
    with true by (symmetry; apply Nat.ltb_lt; lia).
  simpl andb. cbv iota.
  replace (String.length stem + S (String.length ext) - String.length stem)
    with (String.length (String "."%char ext)) by (simpl; lia).
  apply substring_drop.
Qed.

(** A non-empty suffix splits the name into a non-empty stem and the
    suffix, which starts at the last dot. *)
Lemma suffix_nonempty_inv (p : Path) :
  PurePath.suffix p <> "" ->
  exists stem ext, PurePath.name p = (stem ++ String "."%char ext)%string
                   /\ stem <> "" /\ PurePath.suffix p = String "."%char ext.
Proof.
  unfold PurePath.suffix.
  destruct (PurePath.rfind_dot (PurePath.name p)) as [i|] eqn:E; [|congruence].
  destruct (rfind_dot_Some _ _ E) as (stem & ext & Hn & Hi & Hd).
  destruct ((0 <? i)%nat && (i <? String.length (PurePath.name p) - 1)%nat) eqn:C;
    [|congruence].
  intros _. apply andb_true_iff in C as [C1 C2]. apply Nat.ltb_lt in C1.
  exists stem, ext. split; [exact Hn|]. split.
  - intros ->. simpl in Hi. lia.
  - rewrite Hn at 1 2. rewrite length_append, <- Hi.
    replace (String.length stem + String.length (String "."%char ext) - String.length stem)
      with (String.length (String "."%char ext)) by lia.
    apply substring_drop.
Qed.

End Filters.

(** C4. [is_yaml_file] holds exactly of the paths whose name carries the
    extension [.yaml] or [.yml], compared without regard to case, behind a
    non-empty stem.  In any directory [app.YAML], [app.Yml] and [app.yaml]
    qualify, [app.yamlx] and [app.json] do not.  The function reads the path
    only: it takes no file system. *)
Theorem is_yaml_file_iff_extension (p : Path) :
  (is_yaml_file p = true <-> has_yaml_extension (PurePath.name p))
  /\ (forall d : Path,
        is_yaml_file (PurePath.joinpath d "app.YAML") = true
        /\ is_yaml_file (PurePath.joinpath d "app.Yml") = true
        /\ is_yaml_file (PurePath.joinpath d "app.yaml") = true
        /\ is_yaml_file (PurePath.joinpath d "app.yamlx") = false
        /\ is_yaml_file (PurePath.joinpath d "app.json") = false).
Proof.
  split; [split|].
  - intros H. unfold is_yaml_file in H.
    assert (Hne : PurePath.suffix p <> "").
    { intros E. rewrite E in H. discriminate H. }
    destruct (suffix_nonempty_inv p Hne) as (stem & ext & Hn & Hs & Hx).
    exists stem, (String "."%char ext). repeat split; [exact Hn | exact Hs |].
    rewrite <- Hx. apply orb_true_iff in H as [H|H]; apply String.eqb_eq in H; auto.
  - intros (stem & ext & Hn & Hs & Hl).
    assert (Hshape : exists post, ext = String "."%char post /\ post <> ""
                                  /\ PurePath.rfind_dot post = None).
    { destruct ext as [|c post]; [destruct Hl; discriminate|].
      assert (c = "."%char) as ->
        by (apply lower_ascii_dot_inv; destruct Hl as [Hl|Hl]; simpl in Hl; congruence).
      exists post. split; [reflexivity|]. split.
      - intros ->. destruct Hl; discriminate.
      - apply rfind_dot_lower_None.
        destruct Hl as [Hl|Hl]; simpl in Hl; injection Hl as Hl; rewrite Hl; reflexivity. }
    destruct Hshape as (post & -> & Hp & Hd).
    unfold is_yaml_file. rewrite (suffix_stem_ext p stem post Hn Hs Hp Hd).
    destruct Hl as [-> | ->]; reflexivity.
  - intros d. unfold is_yaml_file, PurePath.suffix.
    rewrite !name_joinpath. repeat split; reflexivity.
Qed.

(** ** The order on paths and the sort *)

Section PathOrder.

Lemma string_compare_eq (x y : string) : String.compare x y = Eq <-> x = y.
Proof. apply String_as_OT.cmp_eq. Qed.

Lemma string_compare_opp (x y : string) :
  String.compare y x = CompOpp (String.compare x y).
Proof. apply String.compare_antisym. Qed.

Lemma string_compare_trans (x y z : string) (c : comparison) :
  String.compare x y = c -> String.compare y z = c -> String.compare x z = c.
Proof.
  destruct c; intros H1 H2.
  - apply string_compare_eq in H1, H2. subst. now apply string_compare_eq.
  - apply String_as_OT.cmp_lt in H1, H2. apply String_as_OT.cmp_lt.
    eapply String_as_OT.lt_trans; eassumption.
  - rewrite string_compare_opp in H1, H2.
    apply CompOpp_iff in H1, H2. simpl in H1, H2.
    apply String_as_OT.cmp_lt in H1, H2.
    rewrite string_compare_opp. apply CompOpp_iff. simpl.
    apply String_as_OT.cmp_lt. eapply String_as_OT.lt_trans; eassumption.
Qed.

Lemma compare_eq (a b : Path) : PurePath.compare a b = Eq <-> a = b.
Proof. apply list_compare_refl, string_compare_eq. Qed.

Lemma compare_opp (a b : Path) :
  PurePath.compare b a = CompOpp (PurePath.compare a b).
Proof.
  apply list_compare_antisym; [apply string_compare_eq | apply string_compare_opp].
Qed.

Lemma lt_trans (a b c : Path) : PurePath.lt a b -> PurePath.lt b c -> PurePath.lt a c.
Proof.
  unfold PurePath.lt, PurePath.compare.
  apply list_compare_trans;
    [apply string_compare_eq | apply string_compare_trans | apply string_compare_opp].
Qed.

Lemma lt_irrefl (a : Path) : ~ PurePath.lt a a.
Proof.
  unfold PurePath.lt. intros H.
  assert (PurePath.compare a a = Eq) by now apply compare_eq.
  congruence.
Qed.

Lemma lt_asym (a b : Path) : PurePath.lt a b -> ~ PurePath.lt b a.
Proof. intros H1 H2. exact (lt_irrefl a (lt_trans _ _ _ H1 H2)). Qed.

Lemma lt_total (a b : Path) : a <> b -> PurePath.lt a b \/ PurePath.lt b a.
Proof.
  intros Hne. unfold PurePath.lt.
  destruct (PurePath.compare a b) eqn:E.
  - apply compare_eq in E. contradiction.
  - now left.
  - right. rewrite compare_opp, E. reflexivity.
Qed.

Lemma ltb_lt (a b : Path) : PurePath.ltb a b = true <-> PurePath.lt a b.
Proof.
  unfold PurePath.ltb, PurePath.lt.
  destruct (PurePath.compare a b); split; intros H; congruence.
Qed.

Lemma insert_sorted_perm (x : Path) (l : list Path) :
  insert_sorted x l ≡ₚ x :: l.
Proof.
  induction l as [|y l IH]; simpl; [reflexivity|].
  destruct (PurePath.ltb x y); [reflexivity|].
  rewrite IH. apply perm_swap.
Qed.

Lemma fold_insert_perm (l acc : list Path) :
  List.fold_left (fun a x => insert_sorted x a) l acc ≡ₚ acc ++ l.
Proof.
  revert acc. induction l as [|x l IH]; intros acc; simpl.
  - now rewrite app_nil_r.
  - rewrite IH, insert_sorted_perm. apply Permutation_middle.
Qed.

Lemma sort_perm (l : list Path) : sort l ≡ₚ l.
Proof. apply (fold_insert_perm l []). Qed.

Lemma insert_sorted_sorted (x : Path) (l : list Path) :
  StronglySorted PurePath.lt l -> x ∉ l ->
  StronglySorted PurePath.lt (insert_sorted x l).
Proof.
  induction 1 as [|y l Hs IH Hy]; intros Hx; simpl.
  - constructor; constructor.
  - apply not_elem_of_cons in Hx as [Hxy Hx].
    destruct (PurePath.ltb x y) eqn:E.
    + apply ltb_lt in E. constructor; [now constructor|].
      constructor; [exact E|].
      eapply List.Forall_impl; [|exact Hy]. intros z Hz. eapply lt_trans; eassumption.
    + assert (Hyx : PurePath.lt y x).
      { destruct (lt_total x y Hxy) as [H|H]; [|exact H].
        apply ltb_lt in H. congruence. }
      constructor; [apply IH; exact Hx|].
      apply Forall_forall. intros z Hz.
      rewrite insert_sorted_perm in Hz.
      apply elem_of_cons in Hz as [->|Hz]; [exact Hyx|].
      rewrite Forall_forall in Hy. now apply Hy.
Qed.

Lemma fold_insert_sorted (l acc : list Path) :
  StronglySorted PurePath.lt acc -> NoDup (acc ++ l) ->
  StronglySorted PurePath.lt (List.fold_left (fun a x => insert_sorted x a) l acc).
Proof.
  revert acc. induction l as [|x l IH]; intros acc Hs Hn; simpl; [exact Hs|].
  apply IH.
  - apply insert_sorted_sorted; [exact Hs|].
    apply NoDup_app in Hn as (_ & Hn & _).
    intros H. apply (Hn x H). left.
  - rewrite insert_sorted_perm. simpl.
    rewrite Permutation_middle. exact Hn.
Qed.

Lemma sort_sorted (l : list Path) : NoDup l -> StronglySorted PurePath.lt (sort l).
Proof. intros H. apply fold_insert_sorted; [constructor | exact H]. Qed.

Lemma sort_NoDup (l : list Path) : NoDup l -> NoDup (sort l).
Proof. intros H. now rewrite sort_perm. Qed.

Lemma sort_elem_of (l : list Path) (p : Path) : p ∈ sort l <-> p ∈ l.
Proof. now rewrite sort_perm. Qed.

End PathOrder.

Lemma sorted_precedes (l : list Path) :
  StronglySorted PurePath.lt l ->
  forall a b, precedes l a b -> PurePath.lt a b.
Proof.
  induction 1 as [|x l Hs IH Hx]; intros a b (i & j & Hij & Hi & Hj).
  - destruct i; discriminate.
  - destruct j as [|j]; [lia|]. simpl in Hj.
    destruct i as [|i]; simpl in Hi.
    + injection Hi as <-. rewrite Forall_forall in Hx.
      apply Hx. eapply list_elem_of_lookup_2; eassumption.
    + apply IH. exists i, j. repeat split; [lia | assumption | assumption].
Qed.

Lemma sorted_precedes_iff (l : list Path) :
  StronglySorted PurePath.lt l ->
  forall a b, a ∈ l -> b ∈ l -> (precedes l a b <-> PurePath.lt a b).
Proof.
  intros Hs a b Ha Hb. split; [apply sorted_precedes; exact Hs|].
  intros Hlt.
  apply list_elem_of_lookup in Ha as [i Hi].
  apply list_elem_of_lookup in Hb as [j Hj].
  destruct (Nat.lt_trichotomy i j) as [H|[H|H]].
  - exists i, j. auto.
  - subst j. assert (a = b) by congruence. subst b.
    exfalso. eapply lt_irrefl; eassumption.
  - exfalso. apply (lt_asym a b Hlt).
    apply (sorted_precedes l Hs). exists j, i. auto.
Qed.

(** ** Path lookup *)

Section Lookup.

Lemma walk_eq (fuel : nat) (follow : bool) (fs : node)
    (real : Path) (cur : node) (rest : list string) :
  walk fuel follow fs real cur rest =
    match rest with
    | [] => Found real cur
    | c :: rest' =>
        match cur with
        | Dir _ entries =>
            match assoc c entries with
            | None => Ignored
            | Some (Unstatable e) => Failed e
            | Some (Symlink target) =>
                match rest', follow with
                | [], false => Found (real ++ [c]) (Symlink target)
                | _, _ =>
                    match fuel with
                    | O => Ignored
                    | S fuel' => walk fuel' follow fs [] fs (target ++ rest')
                    end
                end
            | Some n => walk fuel follow fs (real ++ [c]) n rest'
            end
        | _ => Ignored
        end
    end.
Proof. destruct fuel; destruct rest; reflexivity. Qed.

Lemma last_cons_nonempty (c : string) (l : list string) :
  l <> [] -> List.last (c :: l) "" = List.last l "".
Proof. destruct l; [congruence | reflexivity]. Qed.

Lemma last_app_nonempty (l1 l2 : list string) :
  l2 <> [] -> List.last (l1 ++ l2) "" = List.last l2 "".
Proof.
  intros H. induction l1 as [|c l1 IH]; [reflexivity|].
  simpl app. rewrite last_cons_nonempty; [exact IH|].
  destruct l1; simpl; [exact H | congruence].
Qed.

(** [lstat] never replaces the final component: what it finds carries
    the name that was asked for. *)
Lemma walk_nofollow_name (fuel : nat) (fs : node) :
  forall (rest : list string) (real : Path) (cur : node) (real' : Path) (n : node),
    walk fuel false fs real cur rest = Found real' n ->
    rest <> [] ->
    List.last real' "" = List.last rest "".
Proof.
  induction fuel as [|fuel IHf]; induction rest as [|c rest IHr];
    intros real cur real' n H Hne; try congruence; rewrite walk_eq in H.
  all: destruct cur as [| |l entries|]; try discriminate H.
  all: destruct (assoc c entries) as [[|target|l' es'|e]|]; try discriminate H.
  all: destruct rest as [|c' rest].
  all: try (rewrite walk_eq in H; injection H as <- _; now rewrite last_last).
  all: try (rewrite (last_cons_nonempty c (c' :: rest)); [|discriminate]; eapply IHr; [exact H | discriminate]).
  - injection H as <- _. now rewrite last_last.
  - discriminate H.
  - injection H as <- _. now rewrite last_last.
  - apply IHf in H; [|destruct target; discriminate].
    rewrite H. rewrite (last_app_nonempty target (c' :: rest)); [|discriminate].
    rewrite (last_cons_nonempty c (c' :: rest)); [reflexivity | discriminate].
Qed.

(** Short of a final link, [stat] and [lstat] see the same thing. *)
Lemma walk_follow_agree (fuel : nat) (fs : node) :
  forall (rest : list string) (real : Path) (cur : node),
    match walk fuel false fs real cur rest with
    | Found _ (Symlink _) => True
    | r => walk fuel true fs real cur rest = r
    end.
Proof.
  induction fuel as [|fuel IHf]; induction rest as [|c rest IHr]; intros real cur;
    rewrite (walk_eq _ false), (walk_eq _ true).
  all: try (destruct cur; auto; fail).
  all: destruct cur as [| |l entries|]; try reflexivity.
  all: destruct (assoc c entries) as [[|target|l' es'|e]|]; try reflexivity.
  all: try apply IHr.
  - destruct rest; simpl; [exact I | reflexivity].
  - destruct rest; simpl; [exact I | apply IHf].
Qed.

Lemma descend_app (cur : node) (p q : list string) :
  descend cur (p ++ q) =
    match descend cur p with
    | Some n => descend n q
    | None => None
    end.
Proof.
  revert cur. induction p as [|c p IH]; intros cur; simpl; [reflexivity|].
  destruct cur as [| |l entries|]; try reflexivity.
  destruct (assoc c entries); [apply IH | reflexivity].
Qed.

(** A lookup reports a canonical path: real directories lead from the root
    of the file system to the node it found. *)
Lemma walk_found_descend (fuel : nat) (follow : bool) (fs : node) :
  forall (rest : list string) (real : Path) (cur : node) (real' : Path) (n : node),
    descend fs real = Some cur ->
    walk fuel follow fs real cur rest = Found real' n ->
    descend fs real' = Some n.
Proof.
  induction fuel as [|fuel IHf]; induction rest as [|c rest IHr];
    intros real cur real' n Hd H; rewrite walk_eq in H.
  all: try (injection H as <- <-; exact Hd).
  all: destruct cur as [| |l entries|]; try discriminate H.
  all: destruct (assoc c entries) as [child|] eqn:Ec; try discriminate H.
  all: assert (Hd' : descend fs (real ++ [c]) = Some child)
         by (rewrite descend_app, Hd; simpl; rewrite Ec; reflexivity).
  all: destruct child as [|target|l' es'|e]; try discriminate H.
  all: try (eapply IHr; [exact Hd' | exact H]).
  - destruct rest; destruct follow; try discriminate H.
    injection H as <- <-. exact Hd'.
  - destruct rest; destruct follow;
      try (injection H as <- <-; exact Hd');
      (eapply IHf; [|exact H]); reflexivity.
Qed.

Lemma stat_found_descend (fs : node) (p real : Path) (n : node) :
  stat fs p = Found real n -> descend fs real = Some n.
Proof. apply walk_found_descend. reflexivity. Qed.

Lemma lstat_name (fs : node) (p real : Path) (n : node) :
  lstat fs p = Found real n -> PurePath.name real = PurePath.name p.
Proof.
  unfold lstat, PurePath.name. intros H. destruct p as [|c p].
  - rewrite walk_eq in H. injection H as <- _. reflexivity.
  - eapply walk_nofollow_name; [exact H | congruence].
Qed.

(** An entry that is not a link and is a regular file is found at its
    canonical path by [lstat] itself. *)
Lemma regular_entry (fs : node) (item : Path) :
  is_symlink fs item = Returned false ->
  is_file fs item = Returned true ->
  lstat fs item = Found (resolve fs item) File.
Proof.
  unfold is_symlink, is_file, resolve, lstat, stat.
  pose proof (walk_follow_agree MAXSYMLINKS fs item [] fs) as Hag.
  destruct (walk MAXSYMLINKS false fs [] fs item) as [real [| | |]| |e];
    try discriminate; intros _; rewrite Hag; try discriminate; reflexivity.
Qed.

Lemma is_file_stat (fs : node) (item : Path) :
  is_file fs item = Returned true <-> stat fs item = Found (resolve fs item) File.
Proof.
  unfold is_file, resolve.
  destruct (stat fs item) as [real [| | |]| |e]; split; intros H;
    try discriminate H; try reflexivity; injection H as H; discriminate H.
Qed.

Lemma is_yaml_file_name (p q : Path) :
  PurePath.name p = PurePath.name q -> is_yaml_file p = is_yaml_file q.
Proof. intros H. unfold is_yaml_file, PurePath.suffix. now rewrite H. Qed.

Lemma select_recursive_true (fs : node) (item : Path) :
  select_recursive fs item = Returned true <->
    List.existsb is_hidden_directory (PurePath.parents item) = false
    /\ is_symlink fs item = Returned false
    /\ is_file fs item = Returned true
    /\ is_yaml_file item = true.
Proof.
  unfold select_recursive.
  destruct (List.existsb is_hidden_directory (PurePath.parents item));
    [split; [discriminate | intros [H _]; discriminate H]|].
  destruct (is_symlink fs item) as [[]|e];
    try (split; [discriminate | intros (_ & H & _); discriminate H]).
  destruct (is_file fs item) as [[]|e];
    try (split; [discriminate | intros (_ & _ & H & _); discriminate H]).
  simpl. destruct (is_yaml_file item);
    [tauto | split; [discriminate | intros (_ & _ & _ & H); discriminate H]].
Qed.

Lemma select_top_level_true (fs : node) (item : Path) :
  select_top_level fs item = Returned true <->
    is_file fs item = Returned true /\ is_yaml_file item = true.
Proof.
  unfold select_top_level.
  destruct (is_file fs item) as [[]|e];
    try (split; [discriminate | intros [H _]; discriminate H]).
  simpl. destruct (is_yaml_file item);
    [tauto | split; [discriminate | intros [_ H]; discriminate H]].
Qed.

End Lookup.

(** ** The traversals *)

Section Traversal.

Lemma gen_seq_yielded {A} (g1 g2 : gen A) (x : A) :
  x ∈ yielded (gen_seq g1 g2) -> x ∈ yielded g1 \/ x ∈ yielded g2.
Proof.
  unfold gen_seq. destruct (exit g1); [now left|].
  simpl. apply elem_of_app.
Qed.

Lemma children_elem_of (p item : Path) (entries : list (string * node)) :
  item ∈ children p entries <->
  exists c child, (c, child) ∈ entries /\ item = PurePath.joinpath p c.
Proof.
  unfold children. rewrite list_elem_of_In, in_map_iff. split.
  - intros ([c child] & <- & H). exists c, child.
    split; [now apply list_elem_of_In | reflexivity].
  - intros (c & child & H & ->). exists (c, child).
    split; [reflexivity | now apply list_elem_of_In].
Qed.

Lemma except_PermissionError_return_yielded {A} (e : exn) :
  yielded (@except_PermissionError_return A e) = [].
Proof.
  unfold except_PermissionError_return.
  now destruct (isinstance e PermissionError).
Qed.

Lemma rglob_node_Dir (fs : node) (p : Path) (entries : list (string * node)) :
  rglob_node fs p (Dir None entries) =
    gen_seq (gen_yield_all (children p entries)) (rglob_subdirs fs p entries).
Proof. reflexivity. Qed.

Lemma rglob_node_fault (fs : node) (p : Path) (e : exn) (entries : list (string * node)) :
  rglob_node fs p (Dir (Some e) entries) = except_PermissionError_return e.
Proof. reflexivity. Qed.

Lemma rglob_subdirs_cons (fs : node) (p : Path) (c : string) (child : node)
    (es : list (string * node)) :
  rglob_subdirs fs p ((c, child) :: es) =
    match child with
    | Dir _ _ =>
        gen_seq (rglob_node fs (PurePath.joinpath p c) child) (rglob_subdirs fs p es)
    | Symlink _ =>
        match is_dir fs (PurePath.joinpath p c) with
        | Raised e => except_PermissionError_return e
        | Returned _ => rglob_subdirs fs p es
        end
    | _ => rglob_subdirs fs p es
    end.
Proof. reflexivity. Qed.

Lemma reaches_nonempty (n : node) (rel : list string) (child : node) :
  reaches n rel child -> rel <> [].
Proof. destruct 1; discriminate. Qed.

(** Whatever [rglob] yields below a directory lies behind real
    directories: the walk does not pass through a link. *)
Lemma rglob_node_reaches (fs : node) (n : node) :
  forall (p item : Path),
    item ∈ yielded (rglob_node fs p n) ->
    exists rel child, item = p ++ rel /\ reaches n rel child.
Proof.
  induction n as [| | |l entries IH] using node_induction; intros p item H;
    try (simpl in H; inversion H; fail).
  destruct l as [e|].
  { rewrite rglob_node_fault, except_PermissionError_return_yielded in H. inversion H. }
  rewrite rglob_node_Dir in H. apply gen_seq_yielded in H as [H|H].
  - apply children_elem_of in H as (c & child & Hc & ->).
    exists [c], child. split; [reflexivity | now constructor].
  - assert (Hsub : forall es, (forall e, e ∈ es -> e ∈ entries) ->
              Forall (fun e => forall p item,
                        item ∈ yielded (rglob_node fs p (snd e)) ->
                        exists rel child, item = p ++ rel /\ reaches (snd e) rel child) es ->
              item ∈ yielded (rglob_subdirs fs p es) ->
              exists rel child, item = p ++ rel /\ reaches (Dir None entries) rel child).
    { clear H IH. induction es as [|[c child] es IHes]; intros Hin Hall H.
      - inversion H.
      - apply Forall_cons in Hall as [Hhd Htl].
        assert (Hrest : item ∈ yielded (rglob_subdirs fs p es) ->
                  exists rel child, item = p ++ rel /\ reaches (Dir None entries) rel child).
        { apply IHes; [|exact Htl]. intros e He. apply Hin. now right. }
        rewrite rglob_subdirs_cons in H.
        destruct child as [|target|l' es'|e]; try (apply Hrest; exact H).
        + destruct (is_dir fs (PurePath.joinpath p c)) as [b|e]; [now apply Hrest|].
          rewrite except_PermissionError_return_yielded in H. inversion H.
        + apply gen_seq_yielded in H as [H|H]; [|now apply Hrest].
          destruct (Hhd _ _ H) as (rel & child & -> & Hr).
          exists (c :: rel), child. split.
          * unfold PurePath.joinpath. now rewrite <- app_assoc.
          * eapply reaches_step; [|exact Hr]. apply Hin. left. }
    apply (Hsub entries); auto.
Qed.

Lemma rglob_reaches (fs : node) (d item : Path) :
  item ∈ yielded (rglob fs d) ->
  exists real l entries rel child,
    stat fs d = Found real (Dir l entries)
    /\ item = d ++ rel /\ reaches (Dir l entries) rel child.
Proof.
  unfold rglob. destruct (stat fs d) as [real [| |l entries|]| |e];
    try (intros H; inversion H; fail).
  intros H. apply rglob_node_reaches in H as (rel & child & -> & Hr).
  exists real, l, entries, rel, child. auto.
Qed.


End Traversal.

(** ** The scan loop *)

Lemma recursive_body_spec (fs : node) (item : Path) (st : scan_state) :
  recursive_body fs item st =
    match select_recursive fs item with
    | Raised e => (st, Raised e)
    | Returned true => (record (resolve fs item) st, Returned tt)
    | Returned false => (st, Returned tt)
    end.
Proof.
  unfold recursive_body, select_recursive, record, bind, call, ret, not_seen,
    seen_add, files_append.
  destruct (List.existsb is_hidden_directory (PurePath.parents item)); [reflexivity|].
  destruct (is_symlink fs item) as [[]|e]; try reflexivity.
  destruct (is_file fs item) as [[]|e]; try reflexivity.
  simpl. destruct (is_yaml_file item); [|reflexivity].
  destruct (bool_decide (resolve fs item ∉ seen_files st)); reflexivity.
Qed.

Lemma top_level_body_spec (fs : node) (item : Path) (st : scan_state) :
  top_level_body fs item st =
    match select_top_level fs item with
    | Raised e => (st, Raised e)
    | Returned true => (record (resolve fs item) st, Returned tt)
    | Returned false => (st, Returned tt)
    end.
Proof.
  unfold top_level_body, select_top_level, record, bind, call, ret, not_seen,
    seen_add, files_append.
  destruct (is_file fs item) as [[]|e]; try reflexivity.
  simpl. destruct (is_yaml_file item); [|reflexivity].
  destruct (bool_decide (resolve fs item ∉ seen_files st)); reflexivity.
Qed.

Lemma loop_body_spec (fs : node) (options : ScanOptions) (item : Path) (st : scan_state) :
  loop_body fs options item st =
    match selects fs options item with
    | Raised e => (st, Raised e)
    | Returned true => (record (resolve fs item) st, Returned tt)
    | Returned false => (st, Returned tt)
    end.
Proof.
  unfold loop_body, selects. destruct (recursive options);
    [apply recursive_body_spec | apply top_level_body_spec].
Qed.

Section Record.

Lemma record_errors (p : Path) (st : scan_state) :
  errors (result (record p st)) = errors (result st).
Proof. unfold record. case_bool_decide; reflexivity. Qed.

Lemma record_ok (p : Path) (st : scan_state) :
  accumulator_ok st -> accumulator_ok (record p st).
Proof.
  intros [Hn Hs]. unfold record. case_bool_decide as Hp; [|split; assumption].
  split; simpl.
  - apply NoDup_app. split; [exact Hn|]. split; [|apply NoDup_singleton].
    intros x Hx Hx'. apply list_elem_of_singleton in Hx'. subst x.
    apply Hp, Hs, Hx.
  - intros q. rewrite elem_of_union, elem_of_singleton, elem_of_app,
      list_elem_of_singleton, Hs. tauto.
Qed.

Lemma record_elem_of (p q : Path) (st : scan_state) :
  accumulator_ok st ->
  q ∈ files (result (record p st)) <-> q = p \/ q ∈ files (result st).
Proof.
  intros [Hn Hs]. unfold record. case_bool_decide as Hp; simpl.
  - rewrite elem_of_app, list_elem_of_singleton. tauto.
  - split; [auto|]. intros [->|H]; [|exact H].
    apply Hs. destruct (decide (p ∈ seen_files st)); [assumption | contradiction].
Qed.

End Record.

Section Loop.

Variable fs : node.
Variable select : Path -> outcome bool.
Variable body : Path -> stmt unit.
Hypothesis body_spec : forall item st,
  body item st =
    match select item with
    | Raised e => (st, Raised e)
    | Returned true => (record (resolve fs item) st, Returned tt)
    | Returned false => (st, Returned tt)
    end.

Lemma for_each_cons (item : Path) (items : list Path) (st : scan_state) :
  for_each (item :: items) body st =
    match select item with
    | Raised e => (st, Raised e)
    | Returned true => for_each items body (record (resolve fs item) st)
    | Returned false => for_each items body st
    end.
Proof.
  simpl. unfold bind. rewrite body_spec.
  destruct (select item) as [[]|e]; reflexivity.
Qed.

Lemma for_each_errors (items : list Path) (st st' : scan_state) (out : outcome unit) :
  for_each items body st = (st', out) ->
  errors (result st') = errors (result st).
Proof.
  revert st. induction items as [|item items IH]; intros st H.
  - injection H as <- _. reflexivity.
  - rewrite for_each_cons in H. destruct (select item) as [[]|e].
    + rewrite (IH _ H). apply record_errors.
    + exact (IH _ H).
    + injection H as <- _. reflexivity.
Qed.

Lemma for_each_ok (items : list Path) (st st' : scan_state) (out : outcome unit) :
  for_each items body st = (st', out) ->
  accumulator_ok st -> accumulator_ok st'.
Proof.
  revert st. induction items as [|item items IH]; intros st H Hok.
  - injection H as <- _. exact Hok.
  - rewrite for_each_cons in H. destruct (select item) as [[]|e].
    + apply (IH _ H). now apply record_ok.
    + exact (IH _ H Hok).
    + injection H as <- _. exact Hok.
Qed.

(** Every recorded path is the resolution of a selected entry. *)
Lemma for_each_sound (items : list Path) (st st' : scan_state) (out : outcome unit) :
  for_each items body st = (st', out) ->
  accumulator_ok st ->
  forall f, f ∈ files (result st') ->
    f ∈ files (result st)
    \/ exists item, item ∈ items /\ select item = Returned true /\ f = resolve fs item.
Proof.
  revert st. induction items as [|item items IH]; intros st H Hok f Hf.
  - injection H as <- _. now left.
  - rewrite for_each_cons in H. destruct (select item) as [[]|e] eqn:E.
    + destruct (IH _ H (record_ok _ _ Hok) f Hf) as [Hin|(x & Hx & Hsel & ->)].
      * apply record_elem_of in Hin as [->|Hin]; [|now left|exact Hok].
        right. exists item. split; [left | auto].
      * right. exists x. split; [now right | auto].
    + destruct (IH _ H Hok f Hf) as [Hin|(x & Hx & Hsel & ->)]; [now left|].
      right. exists x. split; [now right | auto].
    + injection H as <- _. now left.
Qed.

(** A loop that ends normally has decided every entry and holds the
    resolution of each selected one. *)
Lemma for_each_complete (items : list Path) (st st' : scan_state) :
  for_each items body st = (st', Returned tt) ->
  accumulator_ok st ->
  (forall f, f ∈ files (result st) -> f ∈ files (result st'))
  /\ forall item, item ∈ items ->
       (exists b, select item = Returned b)
       /\ (select item = Returned true -> resolve fs item ∈ files (result st')).
Proof.
  revert st. induction items as [|item items IH]; intros st H Hok.
  - injection H as <-. split; [auto|]. intros item Hi. inversion Hi.
  - rewrite for_each_cons in H. destruct (select item) as [[]|e] eqn:E.
    + destruct (IH _ H (record_ok _ _ Hok)) as [Hmono Hall]. split.
      * intros f Hf. apply Hmono. apply record_elem_of; auto.
      * intros x Hx. apply elem_of_cons in Hx as [->|Hx]; [|now apply Hall].
        split; [eauto|]. intros _. apply Hmono. apply record_elem_of; auto.
    + destruct (IH _ H Hok) as [Hmono Hall]. split; [exact Hmono|].
      intros x Hx. apply elem_of_cons in Hx as [->|Hx]; [|now apply Hall].
      split; [eauto|]. congruence.
    + discriminate H.
Qed.

(** A loop that raises stopped at the first entry whose decision raised:
    the entries before it were scanned without failure, the entries after
    it were not looked at. *)
Lemma for_each_raised (items : list Path) (st st' : scan_state) (e : exn) :
  for_each items body st = (st', Raised e) ->
  exists pre x post, items = pre ++ x :: post
    /\ for_each pre body st = (st', Returned tt)
    /\ select x = Raised e.
Proof.
  revert st. induction items as [|item items IH]; intros st H.
  - discriminate H.
  - rewrite for_each_cons in H. destruct (select item) as [[]|e'] eqn:E.
    + destruct (IH _ H) as (pre & x & post & -> & Hpre & Hx).
      exists (item :: pre), x, post. split; [reflexivity|]. split; [|exact Hx].
      rewrite for_each_cons, E. exact Hpre.
    + destruct (IH _ H) as (pre & x & post & -> & Hpre & Hx).
      exists (item :: pre), x, post. split; [reflexivity|]. split; [|exact Hx].
      rewrite for_each_cons, E. exact Hpre.
    + injection H as <- <-. exists [], item, items. auto.
Qed.

End Loop.

(** ** scan_directory as a whole *)

Lemma initial_ok : accumulator_ok initial_state.
Proof.
  split; simpl; [constructor|].
  intros p. split; intros H; [now apply not_elem_of_empty in H | inversion H].
Qed.

Lemma scan_loop_for_in (fs : node) (options : ScanOptions) :
  scan_loop fs options = for_in (traversal fs options) (loop_body fs options).
Proof. unfold scan_loop, traversal, loop_body. destruct (recursive options); reflexivity. Qed.

(** The loop of [scan_directory] in terms of the entries the traversal
    yields and of how the traversal ends. *)
Lemma scan_loop_eq (fs : node) (options : ScanOptions) (st : scan_state) :
  scan_loop fs options st =
    match for_each (yielded (traversal fs options)) (loop_body fs options) st with
    | (st', Returned _) =>
        (st', match exit (traversal fs options) with
              | Some e => Raised e
              | None => Returned tt
              end)
    | (st', Raised e) => (st', Raised e)
    end.
Proof.
  rewrite scan_loop_for_in. unfold for_in, bind, call, ret.
  destruct (for_each _ _ st) as [st' [[]|e]]; [|reflexivity].
  destruct (exit (traversal fs options)); reflexivity.
Qed.

(** Both [except] clauses together catch every [OSError] and attach it to the
    root directory; an exception of another class finds no clause. *)
Lemma handlers_catch (options : ScanOptions) (e : exn) (st : scan_state) :
  isinstance e OSError = true ->
  exists h,
    select_handler e [ (PermissionError, on_permission_error options);
                       (OSError, on_os_error options) ] = Some h
    /\ h e st =
       ({| result := {| files := files (result st);
                        errors := errors (result st) ++ [(input_dir options, describe e)] |};
           seen_files := seen_files st |}, Returned tt).
Proof.
  destruct e as [[] msg]; intros H; try discriminate H;
    simpl; eexists; (split; [reflexivity|]); reflexivity.
Qed.

Lemma handlers_miss (options : ScanOptions) (e : exn) :
  isinstance e OSError = false ->
  select_handler e [ (PermissionError, on_permission_error options);
                     (OSError, on_os_error options) ] = None.
Proof. destruct e as [[] msg]; intros H; try discriminate H; reflexivity. Qed.

Lemma scan_directory_eq (fs : node) (options : ScanOptions)
    (st : scan_state) (out : outcome unit) :
  scan_loop fs options initial_state = (st, out) ->
  scan_directory fs options =
    match out with
    | Returned _ =>
        Returned {| files := sort (files (result st)); errors := errors (result st) |}
    | Raised e =>
        if isinstance e OSError
        then Returned {| files := sort (files (result st));
                         errors := errors (result st) ++ [(input_dir options, describe e)] |}
        else Raised e
    end.
Proof.
  intros H. unfold scan_directory, bind, try_except. rewrite H.
  destruct out as [[]|e]; [reflexivity|].
  destruct (isinstance e OSError) eqn:E.
  - destruct (handlers_catch options e st E) as (h & -> & ->). reflexivity.
  - rewrite (handlers_miss options e E). reflexivity.
Qed.

(** The loop leaves [result.errors] empty, keeps the accumulator
    well-formed, and has scanned a prefix of the enumeration without
    failure. *)
Lemma scan_loop_facts (fs : node) (options : ScanOptions)
    (st : scan_state) (out : outcome unit) :
  scan_loop fs options initial_state = (st, out) ->
  errors (result st) = []
  /\ accumulator_ok st
  /\ exists pre rest,
       yielded (traversal fs options) = pre ++ rest
       /\ for_each pre (loop_body fs options) initial_state = (st, Returned tt)
       /\ (out = Returned tt -> rest = []).
Proof.
  rewrite scan_loop_eq.
  destruct (for_each (yielded (traversal fs options)) (loop_body fs options) initial_state)
    as [st' o] eqn:E.
  intros H.
  assert (Hst : st' = st) by (destruct o as [[]|e]; congruence). subst st'.
  split; [exact (for_each_errors fs _ _ (loop_body_spec fs options) _ _ _ _ E)|].
  split; [exact (for_each_ok fs _ _ (loop_body_spec fs options) _ _ _ _ E initial_ok)|].
  destruct o as [[]|e].
  - exists (yielded (traversal fs options)), []. rewrite app_nil_r. auto.
  - destruct (for_each_raised fs _ _ (loop_body_spec fs options) _ _ _ _ E)
      as (pre & x & post & Hitems & Hpre & Hx).
    exists pre, (x :: post). split; [exact Hitems|]. split; [exact Hpre|].
    intros ->. discriminate H.
Qed.

(** How [scan_directory] ends, from how its loop ended. *)
Lemma scan_directory_outcome (fs : node) (options : ScanOptions) :
  exists st out,
    scan_loop fs options initial_state = (st, out)
    /\ scan_directory fs options =
         match out with
         | Returned _ => Returned {| files := sort (files (result st)); errors := [] |}
         | Raised e =>
             if isinstance e OSError
             then Returned {| files := sort (files (result st));
                              errors := [(input_dir options, describe e)] |}
             else Raised e
         end.
Proof.
  destruct (scan_loop fs options initial_state) as [st out] eqn:E.
  exists st, out. split; [reflexivity|].
  rewrite (scan_directory_eq _ _ _ _ E).
  destruct (scan_loop_facts _ _ _ _ E) as (-> & _). reflexivity.
Qed.

(** Every result that [scan_directory] returns. *)
Lemma scan_directory_returned (fs : node) (options : ScanOptions) (r : ScanResult) :
  scan_directory fs options = Returned r ->
  exists st out,
    scan_loop fs options initial_state = (st, out)
    /\ r = {| files := sort (files (result st)); errors := reported options out |}
    /\ (forall e, out = Raised e -> isinstance e OSError = true).
Proof.
  destruct (scan_directory_outcome fs options) as (st & out & Hloop & Hscan).
  intros H. rewrite H in Hscan. exists st, out. split; [exact Hloop|].
  destruct out as [[]|e].
  - injection Hscan as ->. split; [reflexivity|]. intros e He. discriminate He.
  - destruct (isinstance e OSError) eqn:E; [|discriminate Hscan].
    injection Hscan as ->. split; [reflexivity|].
    intros e' He. injection He as <-. exact E.
Qed.

(** [scan_directory] returns a result, or lets through an exception that is
    not an [OSError]. *)
Lemma scan_directory_cases (fs : node) (options : ScanOptions) :
  (exists r, scan_directory fs options = Returned r) \/ escapes fs options.
Proof.
  destruct (scan_directory_outcome fs options) as (st & [[]|e] & _ & Hscan).
  - left. eauto.
  - destruct (isinstance e OSError) eqn:E; [left; eauto|].
    right. exists e. auto.
Qed.



(** The files of a result are the sorted, duplicate-free resolutions of
    selected entries of the traversal. *)
Lemma scan_directory_files (fs : node) (options : ScanOptions) (r : ScanResult) :
  scan_directory fs options = Returned r ->
  NoDup (files r)
  /\ StronglySorted PurePath.lt (files r)
  /\ forall f, f ∈ files r ->
       exists item, item ∈ yielded (traversal fs options)
                    /\ selects fs options item = Returned true
                    /\ f = resolve fs item.
Proof.
  intros Hscan.
  destruct (scan_directory_returned _ _ _ Hscan) as (st & out & Hloop & -> & _).
  destruct (scan_loop_facts _ _ _ _ Hloop) as (_ & Hok & pre & rest & Hitems & Hpre & _).
  simpl.
  split; [apply sort_NoDup, Hok|]. split; [apply sort_sorted, Hok|].
  intros f Hf. apply (proj1 (sort_elem_of _ _)) in Hf.
  destruct (for_each_sound fs _ _ (loop_body_spec fs options) _ _ _ _ Hpre initial_ok f Hf)
    as [Hin|(item & Hi & Hsel & ->)]; [inversion Hin|].
  exists item. split; [|auto]. rewrite Hitems. apply elem_of_app. now left.
Qed.

(** C3 (as implemented). The files of every result are sorted by the order of
    [Path] objects, which compares the sequences of path components: of two
    paths present in the result, [a] precedes [b] exactly when [a < b] in
    that order.  The scan returns such a result unless it lets through an
    exception that is not an [OSError]. *)
Theorem scan_directory_sorted_by_parts (fs : node) (options : ScanOptions) :
  (exists r,
     scan_directory fs options = Returned r
     /\ StronglySorted PurePath.lt (files r)
     /\ forall a b, a ∈ files r -> b ∈ files r ->
          (precedes (files r) a b <-> PurePath.lt a b))
  \/ escapes fs options.
Proof.
  destruct (scan_directory_cases fs options) as [(r & Hr)|Hesc]; [left|now right].
  destruct (scan_directory_files fs options r Hr) as (_ & Hs & _).
  exists r. split; [exact Hr|]. split; [exact Hs|].
  apply sorted_precedes_iff, Hs.
Qed.

(** C7. In either mode the files of the result hold no path twice.  Each of
    them is what [resolve] gives for an entry of the traversal, and it is
    canonical: from the root of the file system real directories, no link,
    lead along it to a regular file.  The scan returns such a result unless
    it lets through an exception that is not an [OSError]. *)
Theorem scan_directory_no_duplicates (fs : node) (options : ScanOptions) :
  (exists r,
     scan_directory fs options = Returned r
     /\ NoDup (files r)
     /\ forall f, f ∈ files r ->
          descend fs f = Some File
          /\ exists item, item ∈ yielded (traversal fs options) /\ f = resolve fs item)
  \/ escapes fs options.
Proof.
  destruct (scan_directory_cases fs options) as [(r & Hr)|Hesc]; [left|now right].
  destruct (scan_directory_files fs options r Hr) as (Hn & _ & Hf).
  exists r. split; [exact Hr|]. split; [exact Hn|].
  intros f H. destruct (Hf f H) as (item & Hi & Hsel & ->). split; [|eauto].
  assert (Hreg : is_file fs item = Returned true).
  { unfold selects in Hsel. destruct (recursive options).
    - now apply select_recursive_true in Hsel.
    - now apply select_top_level_true in Hsel. }
  apply is_file_stat in Hreg. exact (stat_found_descend _ _ _ _ Hreg).
Qed.

(** C8. Two option values with the same root directory and the same mode
    give the same result on the same file system, whatever their format
    and verbosity. *)
Theorem scan_directory_ignores_presentation (fs : node) (o1 o2 : ScanOptions) :
  input_dir o1 = input_dir o2 ->
  recursive o1 = recursive o2 ->
  scan_directory fs o1 = scan_directory fs o2.
Proof.
  intros Hd Hr. unfold scan_directory, scan_loop, on_permission_error, on_os_error.
  rewrite Hd, Hr. reflexivity.
Qed.



(** ** The two modes *)




(** In recursive mode every file of the result passes the extension filter
    under its own name. *)
Lemma recursive_scan_files_are_yaml (fs : node) (options : ScanOptions) (r : ScanResult) :
  recursive options = true ->
  scan_directory fs options = Returned r ->
  forall f, f ∈ files r -> is_yaml_file f = true.
Proof.
  intros Hrec Hr.
  destruct (scan_directory_files fs options r Hr) as (_ & _ & Hf).
  intros f H. destruct (Hf f H) as (item & _ & Hsel & ->).
  unfold selects in Hsel. rewrite Hrec in Hsel.
  apply select_recursive_true in Hsel as (_ & Hlink & Hreg & Hy).
  rewrite <- Hy. apply is_yaml_file_name.
  eapply lstat_name. now apply regular_entry.
Qed.

Lemma dotfile_not_yaml (p : Path) :
  PurePath.name p = ".yaml" \/ PurePath.name p = ".yml" -> is_yaml_file p = false.
Proof.
  intros H. unfold is_yaml_file, PurePath.suffix. destruct H as [-> | ->]; reflexivity.
Qed.

(** C10 (as implemented). On a path whose whole name is [.yaml] or [.yml],
    [is_yaml_file] is false: the name has no suffix.  Neither loop body
    records anything for an entry of that name, and no result of a
    recursive scan holds such a path; the scan returns a result unless it
    lets through an exception that is not an [OSError]. *)
Theorem dotfile_yaml_entry_never_selected (p : Path) :
  PurePath.name p = ".yaml" \/ PurePath.name p = ".yml" ->
  is_yaml_file p = false
  /\ (forall fs st, fst (recursive_body fs p st) = st)
  /\ (forall fs st, fst (top_level_body fs p st) = st)
  /\ (forall fs options, recursive options = true ->
        (exists r, scan_directory fs options = Returned r /\ p ∉ files r)
        \/ escapes fs options).
Proof.
  intros Hname. pose proof (dotfile_not_yaml p Hname) as Hno.
  split; [exact Hno|]. split; [|split].
  - intros fs st. rewrite recursive_body_spec. unfold select_recursive.
    destruct (List.existsb _ _); [reflexivity|].
    destruct (is_symlink fs p) as [[]|e]; try reflexivity.
    destruct (is_file fs p) as [[]|e]; rewrite ?Hno; reflexivity.
  - intros fs st. rewrite top_level_body_spec. unfold select_top_level.
    destruct (is_file fs p) as [[]|e]; rewrite ?Hno; reflexivity.
  - intros fs options Hrec.
    destruct (scan_directory_cases fs options) as [(r & Hr)|Hesc]; [left|now right].
    exists r. split; [exact Hr|]. intros H.
    apply (recursive_scan_files_are_yaml fs options r Hrec Hr) in H. congruence.
Qed.

(** ** The scenarios of the specification *)

Example scenario_A :
  scan_directory fs_flat (options_for ["r"] false)
  = Returned {| files := [["r"; "app1.yaml"]; ["r"; "app2.yml"]]; errors := [] |}.
Proof. vm_compute. reflexivity. Qed.

Example scenario_B :
  scan_directory fs_nested (options_for ["r"] true)
  = Returned {| files := [["r"; "app1.yaml"];
                          ["r"; "cluster1"; "app2.yaml"];
                          ["r"; "cluster1"; "production"; "app3.yml"]];
                errors := [] |}.
Proof. vm_compute. reflexivity. Qed.

Example scenario_C :
  scan_directory fs_nested (options_for ["r"] false)
  = Returned {| files := [["r"; "app1.yaml"]]; errors := [] |}.
Proof. vm_compute. reflexivity. Qed.

Example scenario_D :
  scan_directory fs_denied (options_for ["r"] false)
  = Returned {| files := [];
                errors := [(["r"],
                  "Permission denied: [Errno 13] Permission denied: '/r'")] |}.
Proof. vm_compute. reflexivity. Qed.

(** The same root directory in recursive mode: [rglob] absorbs the error. *)
Example scenario_D_recursive :
  scan_directory fs_denied (options_for ["r"] true)
  = Returned {| files := []; errors := [] |}.
Proof. vm_compute. reflexivity. Qed.

Example scenario_E :
  scan_directory fs_cycle (options_for ["r"] true)
  = Returned {| files := [["r"; "a.yaml"]; ["r"; "sub"; "b.yml"]]; errors := [] |}.
Proof. vm_compute. reflexivity. Qed.

(** A failure two levels down: the error is attached to [/r], the files seen
    before it are kept, and [/r/z] is never listed. *)
Example deep_fault_aborts :
  scan_directory fs_deep_fault (options_for ["r"] true)
  = Returned {| files := [["r"; "a.yaml"]; ["r"; "bad"; "b.yaml"]];
                errors := [(["r"],
                  "OS error: [Errno 5] Input/output error: '/r/bad/worse'")] |}.
Proof. vm_compute. reflexivity. Qed.

(** [test_permission_errors_with_partial_results]: the directory without
    permissions is passed over in silence and the file beside it is found. *)
Example restricted_directory_skipped :
  scan_directory fs_restricted (options_for ["r"] true)
  = Returned {| files := [["r"; "accessible"; "app1.yaml"]]; errors := [] |}.
Proof. vm_compute. reflexivity. Qed.

(** A link whose target cannot be stat'ed ends the descent at its place in
    the directory: [/r/a] was searched before it, [/r/z] is not, and nothing
    is reported. *)
Example denied_link_ends_descent :
  scan_directory fs_link_denied (options_for ["r"] true)
  = Returned {| files := [["r"; "a"; "a.yaml"]]; errors := [] |}.
Proof. vm_compute. reflexivity. Qed.

(** A walk that exceeds the recursion limit: the exception is not caught. *)
Example too_deep_walk_raises :
  scan_directory fs_too_deep (options_for ["r"] true)
  = Raised (Exn RecursionError "maximum recursion depth exceeded").
Proof. vm_compute. reflexivity. Qed.

(** ** The hidden-directory check *)

Lemma proper_prefix_elem_of (q r : Path) :
  r <> [] -> q ∈ PurePath.proper_prefixes (q ++ r).
Proof.
  intros Hr. induction q as [|c q IH]; simpl.
  - destruct r; [congruence | left].
  - right. apply list_elem_of_fmap. exists q. auto.
Qed.

(** The check looks at every ancestor of the absolute path: a hidden
    component of the root directory's own path excludes every entry. *)
Lemma hidden_root_component_excludes (d rel : Path) (c : string) :
  c ∈ d -> startswith c "." = true -> rel <> [] ->
  List.existsb is_hidden_directory (PurePath.parents (d ++ rel)) = true.
Proof.
  intros Hc Hdot Hrel.
  apply list_elem_of_split in Hc as (d1 & d2 & ->).
  apply existsb_exists. exists (d1 ++ [c]). split.
  - unfold PurePath.parents. apply in_rev. rewrite rev_involutive.
    apply list_elem_of_In.
    replace ((d1 ++ c :: d2) ++ rel) with ((d1 ++ [c]) ++ (d2 ++ rel))
      by (rewrite <- !app_assoc; reflexivity).
    apply proper_prefix_elem_of. destruct d2; [exact Hrel | discriminate].
  - unfold is_hidden_directory, PurePath.name. rewrite last_last. exact Hdot.
Qed.

(** A recursive scan of a directory whose own path has a hidden component
    reports no file at all. *)
Lemma hidden_root_recursive_scan_empty (fs : node) (options : ScanOptions) (c : string)
    (r : ScanResult) :
  recursive options = true ->
  c ∈ input_dir options -> startswith c "." = true ->
  scan_directory fs options = Returned r -> files r = [].
Proof.
  intros Hrec Hc Hdot Hr.
  destruct (scan_directory_files fs options r Hr) as (_ & _ & Hf).
  destruct (files r) as [|f fl]; [reflexivity|]. exfalso.
  destruct (Hf f) as (item & Hi & Hsel & _); [left|].
  unfold traversal in Hi. unfold selects in Hsel. rewrite Hrec in Hi, Hsel.
  apply rglob_reaches in Hi as (real & l & entries & rel & child & _ & -> & Hreach).
  apply select_recursive_true in Hsel as (Hhid & _).
  rewrite (hidden_root_component_excludes _ _ c Hc Hdot (reaches_nonempty _ _ _ Hreach))
    in Hhid.
  discriminate Hhid.
Qed.

(** C2 (the code's behaviour at the failing input). The options for
    [/home/u/.cfg] are valid, the directory holds YAML files none of which
    lies in a hidden directory below it, and the recursive scan excludes
    them all, because the root directory itself is among the ancestors the
    check examines; the non-recursive scan of the same directory reports
    the top-level file. *)
Theorem hidden_root_recursive_scan_excludes_all :
  new_ScanOptions fs_hidden_root ["home"; "u"; ".cfg"] true Human Info
    = Valid (options_for ["home"; "u"; ".cfg"] true)
  /\ scan_directory fs_hidden_root (options_for ["home"; "u"; ".cfg"] true)
     = Returned {| files := []; errors := [] |}
  /\ scan_directory fs_hidden_root (options_for ["home"; "u"; ".cfg"] false)
     = Returned {| files := [["home"; "u"; ".cfg"; "app.yaml"]]; errors := [] |}.
Proof. repeat split; vm_compute; reflexivity. Qed.

(** ** Counterexamples *)



(** C3, read literally, fails: [/r/a/x.yaml] is placed before [/r/a.yaml], while
    as strings ["/r/a.yaml"] is the smaller one. *)
Lemma sorted_by_string_counterexample :
  ~ (forall r,
       scan_directory fs_order (options_for ["r"] true) = Returned r ->
       forall a b, a ∈ files r -> b ∈ files r ->
         (precedes (files r) a b
          <-> String.ltb (PurePath.str a) (PurePath.str b) = true)).
Proof.
  intros H.
  assert (E : scan_directory fs_order (options_for ["r"] true)
              = Returned {| files := [["r"; "a"; "x.yaml"]; ["r"; "a.yaml"]];
                            errors := [] |}) by (vm_compute; reflexivity).
  specialize (H _ E ["r"; "a"; "x.yaml"] ["r"; "a.yaml"]). simpl in H.
  assert (Hp : precedes [["r"; "a"; "x.yaml"]; ["r"; "a.yaml"]]
                 ["r"; "a"; "x.yaml"] ["r"; "a.yaml"]).
  { exists 0, 1. repeat split. lia. }
  apply H in Hp; [vm_compute in Hp; discriminate Hp | left | right; left].
Qed.


(** C10, read literally, fails in non-recursive mode: the file [/r/.yaml] is in
    the result, as the resolution of the link [/r/link.yaml]. *)
Lemma dotfile_yaml_counterexample :
  ~ (forall r,
       scan_directory fs_dotfile_link (options_for ["r"] false) = Returned r ->
       forall f, f ∈ files r ->
         PurePath.name f <> ".yaml" /\ PurePath.name f <> ".yml").
Proof.
  intros H.
  assert (E : scan_directory fs_dotfile_link (options_for ["r"] false)
              = Returned {| files := [["r"; ".yaml"]]; errors := [] |})
    by (vm_compute; reflexivity).
  destruct (H _ E ["r"; ".yaml"]) as [Hne _]; [left|].
  apply Hne. reflexivity.
Qed.

(** ** Instances *)



Lemma scan_directory_ignores_presentation_witness :
  input_dir (options_for ["r"] true)
    = input_dir {| input_dir := ["r"]; recursive := true; format := Json; verbosity := Quiet |}
  /\ recursive (options_for ["r"] true)
     = recursive {| input_dir := ["r"]; recursive := true; format := Json; verbosity := Quiet |}
  /\ scan_directory fs_nested (options_for ["r"] true)
     = scan_directory fs_nested
         {| input_dir := ["r"]; recursive := true; format := Json; verbosity := Quiet |}.
Proof.
  split; [reflexivity|]. split; [reflexivity|].
  apply (scan_directory_ignores_presentation fs_nested); reflexivity.
Defined.

Lemma dotfile_yaml_entry_never_selected_witness :
  (PurePath.name ["r"; ".yaml"] = ".yaml" \/ PurePath.name ["r"; ".yaml"] = ".yml")
  /\ is_yaml_file ["r"; ".yaml"] = false
  /\ exists r, scan_directory fs_dotfile_link (options_for ["r"] true) = Returned r
               /\ ["r"; ".yaml"] ∉ files r.
Proof.
  split; [left; reflexivity|].
  destruct (dotfile_yaml_entry_never_selected ["r"; ".yaml"] (or_introl eq_refl))
    as (Hno & _ & _ & Hrec).
  split; [exact Hno|].
  destruct (Hrec fs_dotfile_link (options_for ["r"] true) eq_refl)
    as [Hr | (e & He & _)]; [exact Hr|].
  exfalso. vm_compute in He. discriminate He.
Defined.


(** * Further properties *)

(** ** Canonical paths *)

Lemma descend_walk (fuel : nat) (follow : bool) (fs : node) :
  forall (p : list string) (real : Path) (cur n : node),
    descend cur p = Some n -> plain n = true ->
    walk fuel follow fs real cur p = Found (real ++ p) n.
Proof.
  induction p as [|c p IH]; intros real cur n Hd Hn; rewrite walk_eq.
  - injection Hd as <-. now rewrite app_nil_r.
  - simpl in Hd. destruct cur as [| |l entries|]; try discriminate Hd.
    destruct (assoc c entries) as [child|]; [|discriminate Hd].
    replace (real ++ c :: p) with ((real ++ [c]) ++ p)
      by (rewrite <- app_assoc; reflexivity).
    destruct child as [|target|l' es'|e].
    + now apply IH.
    + destruct p; [injection Hd as <-|]; discriminate.
    + now apply IH.
    + destruct p; [injection Hd as <-|]; discriminate.
Qed.

(** [lstat] on a path that real directories lead along: the last node is
    reported as it is, a link unfollowed. *)
Lemma descend_lstat (fuel : nat) (fs : node) :
  forall (p : list string) (real : Path) (cur n : node),
    descend cur p = Some n -> p <> [] ->
    walk fuel false fs real cur p =
      match n with
      | Unstatable e => Failed e
      | _ => Found (real ++ p) n
      end.
Proof.
  induction p as [|c p IH]; intros real cur n Hd Hp; [congruence|].
  rewrite walk_eq. simpl in Hd.
  destruct cur as [| |l entries|]; try discriminate Hd.
  destruct (assoc c entries) as [child|]; [|discriminate Hd].
  replace (real ++ c :: p) with ((real ++ [c]) ++ p)
    by (rewrite <- app_assoc; reflexivity).
  destruct p as [|c' p].
  - injection Hd as <-. rewrite app_nil_r.
    destruct child; rewrite ?walk_eq; reflexivity.
  - destruct child as [|target|l' es'|e]; try discriminate Hd.
    apply IH; [exact Hd | discriminate].
Qed.

Lemma descend_stat (fs : node) (p : Path) (n : node) :
  descend fs p = Some n -> plain n = true -> stat fs p = Found p n.
Proof.
  intros Hd Hn. unfold stat. apply (descend_walk MAXSYMLINKS true fs p [] fs n); assumption.
Qed.

Lemma descend_lstat_root (fs : node) (p : Path) (n : node) :
  descend fs p = Some n -> p <> [] ->
  lstat fs p = match n with
               | Unstatable e => Failed e
               | _ => Found p n
               end.
Proof.
  intros Hd Hp. unfold lstat.
  apply (descend_lstat MAXSYMLINKS fs p [] fs n); assumption.
Qed.

Lemma assoc_elem_of (c : string) (n : node) (entries : list (string * node)) :
  assoc c entries = Some n -> (c, n) ∈ entries.
Proof.
  induction entries as [|[c' n'] es IH]; intros H; [discriminate H|].
  simpl in H. destruct (String.eqb_spec c c') as [->|Hne].
  - injection H as ->. left.
  - right. now apply IH.
Qed.

Lemma descend_reaches (n : node) :
  forall (rel : list string) (child : node),
    descend n rel = Some child -> rel <> [] -> reaches n rel child.
Proof.
  induction n as [| | |l entries IH] using node_induction;
    intros rel child Hd Hrel; destruct rel as [|c rel]; try congruence;
    try discriminate Hd.
  simpl in Hd. destruct (assoc c entries) as [n1|] eqn:Ec; [|discriminate Hd].
  pose proof (assoc_elem_of _ _ _ Ec) as Hin.
  destruct rel as [|c' rel].
  - injection Hd as <-. now constructor.
  - destruct n1 as [|target|l' es'|e]; try discriminate Hd.
    eapply reaches_step; [exact Hin|].
    rewrite Forall_forall in IH. apply (IH _ Hin); [exact Hd | discriminate].
Qed.

Lemma assoc_unique (c : string) (child : node) (entries : list (string * node)) :
  NoDup (List.map fst entries) -> (c, child) ∈ entries -> assoc c entries = Some child.
Proof.
  induction entries as [|[c' n'] es IH]; intros Hn Hin; [inversion Hin|].
  simpl in Hn. apply NoDup_cons in Hn as [Hc' Hn]. simpl.
  apply elem_of_cons in Hin as [Heq|Hin].
  - injection Heq as -> ->. now rewrite String.eqb_refl.
  - destruct (String.eqb_spec c c') as [->|Hne]; [|now apply IH].
    exfalso. apply Hc'. apply list_elem_of_fmap. exists (c', child). auto.
Qed.

Lemma unique_names_entry (l : option exn) (entries : list (string * node))
    (c : string) (child : node) :
  unique_names (Dir l entries) -> (c, child) ∈ entries -> unique_names child.
Proof.
  intros [_ Hall] Hin. induction entries as [|[c' n'] es IH]; [inversion Hin|].
  destruct Hall as [Hn' Hall].
  apply elem_of_cons in Hin as [Heq|Hin]; [injection Heq as -> ->; exact Hn'|].
  now apply IH.
Qed.

Lemma reaches_descend (n : node) (rel : list string) (child : node) :
  reaches n rel child -> unique_names n -> descend n rel = Some child.
Proof.
  induction 1 as [l entries c child Hin|l entries c l' es' rel child Hin Hr IH];
    intros Hu; simpl.
  - rewrite (assoc_unique _ _ _ (proj1 Hu) Hin). reflexivity.
  - rewrite (assoc_unique _ _ _ (proj1 Hu) Hin). apply IH.
    eapply unique_names_entry; eassumption.
Qed.

Lemma descend_unique_names (n : node) :
  forall (p : list string) (m : node),
    descend n p = Some m -> unique_names n -> unique_names m.
Proof.
  intros p. revert n. induction p as [|c p IH]; intros n m Hd Hu.
  - injection Hd as <-. exact Hu.
  - simpl in Hd. destruct n as [| |l entries|]; try discriminate Hd.
    destruct (assoc c entries) as [n1|] eqn:Ec; [|discriminate Hd].
    apply (IH n1 m Hd).
    eapply unique_names_entry; [exact Hu | exact (assoc_elem_of _ _ _ Ec)].
Qed.

(** ** Validation of the options *)

Lemma new_ScanOptions_valid_inv (fs : node) (d : Path) (rec : bool)
    (fmt : Format) (verb : Verbosity) (o : ScanOptions) :
  new_ScanOptions fs d rec fmt verb = Valid o ->
  exists l entries,
    stat fs d = Found (input_dir o) (Dir l entries)
    /\ o = {| input_dir := input_dir o; recursive := rec; format := fmt; verbosity := verb |}.
Proof.
  unfold new_ScanOptions, validate_directory_exists, exists_, is_dir, resolve.
  destruct (stat fs d) as [real [| |l entries|]| |e]; try discriminate.
  intros H. injection H as <-. exists l, entries. split; reflexivity.
Qed.

Lemma validated_root (fs : node) (d : Path) (rec : bool)
    (fmt : Format) (verb : Verbosity) (o : ScanOptions) :
  new_ScanOptions fs d rec fmt verb = Valid o ->
  exists l entries,
    descend fs (input_dir o) = Some (Dir l entries)
    /\ stat fs (input_dir o) = Found (input_dir o) (Dir l entries)
    /\ o = {| input_dir := input_dir o; recursive := rec; format := fmt; verbosity := verb |}.
Proof.
  intros H. destruct (new_ScanOptions_valid_inv _ _ _ _ _ _ H) as (l & entries & Hs & Ho).
  pose proof (stat_found_descend _ _ _ _ Hs) as Hd.
  exists l, entries. split; [exact Hd|]. split; [|exact Ho].
  apply descend_stat; [exact Hd | reflexivity].
Qed.

(** X1. The validator canonicalises: the root directory of validated
    options is a path along which real directories, no link, lead to a
    directory; [resolve] leaves it unchanged, and validating it again gives
    the same options. *)
Theorem validated_options_are_canonical (fs : node) (d : Path) (rec : bool)
    (fmt : Format) (verb : Verbosity) (o : ScanOptions) :
  new_ScanOptions fs d rec fmt verb = Valid o ->
  (exists l entries, descend fs (input_dir o) = Some (Dir l entries))
  /\ resolve fs (input_dir o) = input_dir o
  /\ new_ScanOptions fs (input_dir o) rec fmt verb = Valid o.
Proof.
  intros H. destruct (validated_root _ _ _ _ _ _ H) as (l & entries & Hd & Hs' & Ho).
  split; [eauto|]. split.
  - unfold resolve. now rewrite Hs'.
  - unfold new_ScanOptions, validate_directory_exists, exists_, is_dir, resolve.
    rewrite Hs'. f_equal. symmetry. exact Ho.
Qed.






(** ** The hidden-directory check, exactly *)

Lemma proper_prefix_inv (p q : Path) :
  q ∈ PurePath.proper_prefixes p -> exists r, r <> [] /\ p = q ++ r.
Proof.
  revert q. induction p as [|c p IH]; intros q H; simpl in H; [inversion H|].
  apply elem_of_cons in H as [->|H].
  - exists (c :: p). split; [discriminate | reflexivity].
  - apply list_elem_of_fmap in H as (q' & -> & H).
    destruct (IH _ H) as (r & Hr & ->). exists r. split; [exact Hr | reflexivity].
Qed.

Lemma removelast_app_cons (l : list string) (c : string) (r : list string) :
  r <> [] -> List.removelast (l ++ c :: r) = l ++ c :: List.removelast r.
Proof.
  intros Hr. rewrite removelast_app by discriminate.
  destruct r; [congruence | reflexivity].
Qed.

(** X3. The test applied to each entry of the recursive walk is true exactly
    when some component of the entry's path other than its last one starts
    with a dot.  The entry's own name plays no part: two entries of one
    directory are treated alike. *)
Theorem hidden_check_characterised (item : Path) :
  (List.existsb is_hidden_directory (PurePath.parents item) = true
   <-> exists c, c ∈ List.removelast item /\ startswith c "." = true)
  /\ forall d c c',
       List.existsb is_hidden_directory (PurePath.parents (PurePath.joinpath d c))
       = List.existsb is_hidden_directory (PurePath.parents (PurePath.joinpath d c')).
Proof.
  assert (Hiff : forall item,
    List.existsb is_hidden_directory (PurePath.parents item) = true
    <-> exists c, c ∈ List.removelast item /\ startswith c "." = true).
  { clear item. intros item. split.
    - intros H. apply existsb_exists in H as (q & Hq & Hhid).
      unfold PurePath.parents in Hq. apply in_rev in Hq.
      apply list_elem_of_In, proper_prefix_inv in Hq as (r & Hr & ->).
      destruct (exists_last (l := q)) as (q' & c & ->).
      { intros ->. discriminate Hhid. }
      unfold is_hidden_directory, PurePath.name in Hhid. rewrite last_last in Hhid.
      exists c. split; [|exact Hhid].
      rewrite <- app_assoc. simpl. rewrite removelast_app_cons by exact Hr.
      apply elem_of_app. right. left.
    - intros (c & Hc & Hdot).
      assert (Hne : item <> []) by (intros ->; inversion Hc).
      rewrite (app_removelast_last "" Hne).
      apply (hidden_root_component_excludes _ _ c Hc Hdot). discriminate. }
  split; [apply Hiff|].
  intros d c c'.
  destruct (List.existsb is_hidden_directory (PurePath.parents (PurePath.joinpath d c'))) eqn:E.
  - apply Hiff. apply Hiff in E. unfold PurePath.joinpath in *.
    rewrite removelast_last in *. exact E.
  - apply not_true_is_false. intros H. apply Hiff in H.
    unfold PurePath.joinpath in *. rewrite removelast_last in H.
    assert (E' : List.existsb is_hidden_directory (PurePath.parents (d ++ [c'])) = true)
      by (apply Hiff; rewrite removelast_last; exact H).
    congruence.
Qed.

(** ** The recursive scan on a validated root *)

Lemma gen_seq_exit_None {A} (g1 g2 : gen A) :
  exit (gen_seq g1 g2) = None ->
  exit g1 = None /\ exit g2 = None
  /\ yielded (gen_seq g1 g2) = yielded g1 ++ yielded g2.
Proof.
  unfold gen_seq. destruct (exit g1) as [e|] eqn:E; simpl; intros H.
  - congruence.
  - auto.
Qed.

Lemma permitted_Dir (l : option exn) (es : list (string * node)) :
  permitted (Dir l es) <->
  (forall e, l = Some e -> isinstance e PermissionError = false)
  /\ Forall (fun e => permitted (snd e)) es.
Proof.
  simpl. split; intros [Hl H]; (split; [exact Hl|]).
  - induction es as [|[c child] es IH]; [constructor|].
    destruct H as [Hc H]. constructor; [exact Hc | exact (IH H)].
  - induction es as [|[c child] es IH]; [exact I|].
    apply Forall_cons in H as [Hc H]. split; [exact Hc | exact (IH H)].
Qed.

Lemma permitted_entry (l : option exn) (es : list (string * node)) (c : string) (n : node) :
  permitted (Dir l es) -> assoc c es = Some n -> permitted n.
Proof.
  intros H Hc. apply permitted_Dir in H as [_ H]. rewrite Forall_forall in H.
  exact (H _ (assoc_elem_of _ _ _ Hc)).
Qed.

Lemma descend_permitted (n : node) :
  forall (p : list string) (m : node),
    descend n p = Some m -> permitted n -> permitted m.
Proof.
  intros p. revert n. induction p as [|c p IH]; intros n m Hd Hn.
  - injection Hd as <-. exact Hn.
  - simpl in Hd. destruct n as [| |l entries|]; try discriminate Hd.
    destruct (assoc c entries) as [n1|] eqn:Ec; [|discriminate Hd].
    exact (IH _ _ Hd (permitted_entry _ _ _ _ Hn Ec)).
Qed.

(** Where no permission is denied, no lookup fails with a
    [PermissionError]. *)
Lemma walk_permitted (fs : node) :
  permitted fs ->
  forall (fuel : nat) (follow : bool) (rest : list string) (real : Path) (cur : node)
         (e : exn),
    permitted cur -> walk fuel follow fs real cur rest = Failed e ->
    isinstance e PermissionError = false.
Proof.
  intros Hfs. induction fuel as [|fuel IHf]; intros follow;
    induction rest as [|c rest IHr]; intros real cur e Hcur; rewrite walk_eq;
    try discriminate;
    (destruct cur as [| |l entries|]; try discriminate);
    (destruct (assoc c entries) as [n1|] eqn:Ec; [|discriminate]);
    pose proof (permitted_entry _ _ _ _ Hcur Ec) as Hn1;
    (destruct n1 as [|target|l1 es1|e1];
     [now apply IHr | | now apply IHr | intros H; injection H as <-; exact Hn1]).
  - destruct rest, follow; discriminate.
  - destruct rest, follow; try discriminate; now apply IHf.
Qed.

Lemma is_dir_permitted (fs : node) (q : Path) (e : exn) :
  permitted fs -> is_dir fs q = Raised e -> isinstance e PermissionError = false.
Proof.
  intros Hfs. unfold is_dir, stat.
  destruct (walk MAXSYMLINKS true fs [] fs q) as [real [| |l entries|]| |e0] eqn:E;
    try discriminate.
  intros H. injection H as <-. exact (walk_permitted fs Hfs _ _ _ _ _ _ Hfs E).
Qed.

(** Where no permission is denied, [except PermissionError: return] never
    applies: what it is given, it raises. *)
Lemma except_PermissionError_return_exit {A} (e : exn) :
  isinstance e PermissionError = false ->
  exit (@except_PermissionError_return A e) = Some e.
Proof. intros H. unfold except_PermissionError_return. now rewrite H. Qed.

Lemma rglob_subdirs_complete (fs : node) (p : Path) (c : string) (l : option exn)
    (sub : list (string * node)) (es : list (string * node)) :
  permitted fs ->
  exit (rglob_subdirs fs p es) = None ->
  (c, Dir l sub) ∈ es ->
  exit (rglob_node fs (PurePath.joinpath p c) (Dir l sub)) = None
  /\ forall x, x ∈ yielded (rglob_node fs (PurePath.joinpath p c) (Dir l sub)) ->
               x ∈ yielded (rglob_subdirs fs p es).
Proof.
  intros Hfs. induction es as [|[c0 ch0] es IH]; intros Hex Hin; [inversion Hin|].
  rewrite rglob_subdirs_cons in *.
  apply elem_of_cons in Hin as [Heq|Hin].
  - injection Heq as <- <-.
    apply gen_seq_exit_None in Hex as (H1 & _ & ->).
    split; [exact H1|]. intros x Hx. apply elem_of_app. now left.
  - destruct ch0 as [|target|l0 sub0|e]; try (now apply IH).
    + destruct (is_dir fs (PurePath.joinpath p c0)) as [b|e] eqn:E; [now apply IH|].
      rewrite (except_PermissionError_return_exit e (is_dir_permitted _ _ _ Hfs E)) in Hex.
      discriminate Hex.
    + apply gen_seq_exit_None in Hex as (_ & H2 & ->).
      destruct (IH H2 Hin) as [He Hy]. split; [exact He|].
      intros x Hx. apply elem_of_app. right. now apply Hy.
Qed.

(** Where no permission is denied, a walk that ends normally has yielded
    every entry that real directories lead to. *)
Lemma rglob_node_complete (fs : node) (n : node) (rel : list string) (child : node) :
  permitted fs -> reaches n rel child -> permitted n ->
  forall p, exit (rglob_node fs p n) = None -> p ++ rel ∈ yielded (rglob_node fs p n).
Proof.
  intros Hfs.
  induction 1 as [l entries c child Hin|l entries c l' es' rel child Hin Hr IH];
    intros Hn p Hex; apply permitted_Dir in Hn as [Hl Hall];
    (destruct l as [e|];
     [rewrite rglob_node_fault,
        (except_PermissionError_return_exit e (Hl e eq_refl)) in Hex;
      discriminate Hex|]);
    rewrite rglob_node_Dir in *;
    apply gen_seq_exit_None in Hex as (_ & Hsub & ->); apply elem_of_app.
  - left. apply children_elem_of. exists c, child. auto.
  - right. destruct (rglob_subdirs_complete _ _ _ _ _ _ Hfs Hsub Hin) as [He Hy].
    apply Hy. replace (p ++ c :: rel) with (PurePath.joinpath p c ++ rel)
      by (unfold PurePath.joinpath; rewrite <- app_assoc; reflexivity).
    apply IH; [|exact He]. rewrite Forall_forall in Hall. exact (Hall _ Hin).
Qed.

Lemma scan_loop_returned (fs : node) (options : ScanOptions) (st : scan_state) :
  scan_loop fs options initial_state = (st, Returned tt) ->
  exit (traversal fs options) = None
  /\ for_each (yielded (traversal fs options)) (loop_body fs options) initial_state
     = (st, Returned tt).
Proof.
  rewrite scan_loop_eq.
  destruct (for_each _ _ initial_state) as [st' [[]|e]]; [|discriminate].
  destruct (exit (traversal fs options)); [discriminate|].
  intros H. injection H as ->. auto.
Qed.

Lemma traversal_recursive (fs : node) (options : ScanOptions) :
  recursive options = true -> traversal fs options = rglob fs (input_dir options).
Proof. intros H. unfold traversal. now rewrite H. Qed.

Lemma rglob_canonical_root (fs : node) (d : Path)
    (l : option exn) (entries : list (string * node)) :
  stat fs d = Found d (Dir l entries) -> rglob fs d = rglob_node fs d (Dir l entries).
Proof. intros H. unfold rglob. now rewrite H. Qed.

(** On a canonical root in a tree with unique names, [rglob] yields paths
    below the root along which real directories lead. *)
Lemma rglob_below_root (fs : node) (d item : Path)
    (l : option exn) (entries : list (string * node)) :
  descend fs d = Some (Dir l entries) -> unique_names fs ->
  item ∈ yielded (rglob fs d) ->
  exists rel child, rel <> [] /\ item = d ++ rel /\ descend fs item = Some child.
Proof.
  intros Hd Hu Hi.
  assert (Hs : stat fs d = Found d (Dir l entries))
    by (apply descend_stat; [exact Hd | reflexivity]).
  apply rglob_reaches in Hi as (real & l' & es' & rel & child & Hs' & -> & Hr).
  rewrite Hs in Hs'. injection Hs' as <- <- <-.
  exists rel, child. split; [eapply reaches_nonempty; exact Hr|].
  split; [reflexivity|]. rewrite descend_app, Hd.
  apply reaches_descend; [exact Hr|].
  eapply descend_unique_names; eassumption.
Qed.

(** An entry that real directories lead to is selected as itself. *)
Lemma selected_entry_is_itself (fs : node) (item : Path) (child : node) :
  descend fs item = Some child -> item <> [] ->
  is_symlink fs item = Returned false ->
  is_file fs item = Returned true ->
  child = File /\ resolve fs item = item.
Proof.
  intros Hd Hne Hlink Hreg.
  pose proof (regular_entry _ _ Hlink Hreg) as Hl.
  rewrite (descend_lstat_root _ _ _ Hd Hne) in Hl.
  destruct child; try discriminate Hl; injection Hl as <-; auto.
Qed.

(** X4. With validated options on a tree with unique names, every file that
    the recursive scan reports is an entry of the walk itself, lies strictly
    below the root directory, is a regular file reached through real
    directories, passes the extension filter under its own name, and has no
    hidden ancestor; this holds also for the partial result of a scan that
    failed.  The scan returns a result unless it lets through an exception
    that is not an [OSError]. *)
Theorem recursive_scan_reports_entries_below_root (fs : node) (d : Path)
    (fmt : Format) (verb : Verbosity) (o : ScanOptions) :
  new_ScanOptions fs d true fmt verb = Valid o ->
  unique_names fs ->
  (exists r,
     scan_directory fs o = Returned r
     /\ forall f, f ∈ files r ->
          (exists rel, rel <> [] /\ f = input_dir o ++ rel)
          /\ f ∈ yielded (traversal fs o)
          /\ descend fs f = Some File
          /\ is_yaml_file f = true
          /\ List.existsb is_hidden_directory (PurePath.parents f) = false)
  \/ escapes fs o.
Proof.
  intros Hv Hu.
  destruct (validated_root _ _ _ _ _ _ Hv) as (l & entries & Hd & _ & Ho).
  assert (Hrec : recursive o = true) by (rewrite Ho; reflexivity).
  destruct (scan_directory_cases fs o) as [(r & Hr)|Hesc]; [left|now right].
  destruct (scan_directory_files fs o r Hr) as (_ & _ & Hf).
  exists r. split; [exact Hr|]. intros f Hin.
  destruct (Hf f Hin) as (item & Hi & Hsel & ->).
  unfold selects in Hsel. unfold traversal in *. rewrite Hrec in *.
  apply select_recursive_true in Hsel as (Hhid & Hlink & Hreg & Hy).
  destruct (rglob_below_root _ _ _ _ _ Hd Hu Hi) as (rel & child & Hrel & Hitem & Hdi).
  assert (Hne : item <> []) by (rewrite Hitem; destruct (input_dir o); [exact Hrel | discriminate]).
  destruct (selected_entry_is_itself _ _ _ Hdi Hne Hlink Hreg) as [-> ->].
  split; [exists rel; auto|]. split; [exact Hi|]. split; [exact Hdi|].
  split; [exact Hy | exact Hhid].
Qed.

(** X5. With validated options on a tree in which no permission is denied
    (no listing and no [stat] raises a [PermissionError], so that [rglob]
    has nothing to absorb), a recursive scan that returns a result without
    error is complete: the result holds every regular file strictly below
    the root directory that real directories lead to, that passes the
    extension filter and that has no hidden ancestor. *)
Theorem recursive_scan_complete (fs : node) (d : Path)
    (fmt : Format) (verb : Verbosity) (o : ScanOptions) (r : ScanResult) :
  new_ScanOptions fs d true fmt verb = Valid o ->
  permitted fs ->
  scan_directory fs o = Returned r ->
  errors r = [] ->
  forall rel, rel <> [] ->
    descend fs (input_dir o ++ rel) = Some File ->
    is_yaml_file (input_dir o ++ rel) = true ->
    List.existsb is_hidden_directory (PurePath.parents (input_dir o ++ rel)) = false ->
    input_dir o ++ rel ∈ files r.
Proof.
  intros Hv Hfs Hr Herr rel Hrel Hfile Hy Hhid.
  destruct (validated_root _ _ _ _ _ _ Hv) as (l & entries & Hd & Hroot & Ho).
  assert (Hrec : recursive o = true) by (rewrite Ho; reflexivity).
  destruct (scan_directory_returned _ _ _ Hr) as (st & out & Hloop & Hres & _).
  rewrite Hres in Herr |- *. simpl in Herr |- *.
  destruct out as [[]|e]; [|discriminate Herr].
  destruct (scan_loop_returned _ _ _ Hloop) as [Hexit Hfor].
  set (item := input_dir o ++ rel) in *.
  assert (Hne : item <> [])
    by (unfold item; destruct (input_dir o); [exact Hrel | discriminate]).
  assert (Hs : stat fs item = Found item File)
    by (apply descend_stat; [exact Hfile | reflexivity]).
  assert (Hl : lstat fs item = Found item File)
    by (rewrite (descend_lstat_root _ _ _ Hfile Hne); reflexivity).
  assert (Hresolve : resolve fs item = item) by (unfold resolve; now rewrite Hs).
  assert (Hyield : item ∈ yielded (traversal fs o)).
  { rewrite (traversal_recursive _ _ Hrec), (rglob_canonical_root _ _ _ _ Hroot)
      in Hexit |- *.
    unfold item. apply (rglob_node_complete fs (Dir l entries) rel File Hfs).
    - apply descend_reaches; [|exact Hrel].
      unfold item in Hfile. rewrite descend_app, Hd in Hfile. exact Hfile.
    - exact (descend_permitted _ _ _ Hd Hfs).
    - exact Hexit. }
  destruct (for_each_complete fs _ _ (loop_body_spec fs o) _ _ _ Hfor initial_ok)
    as [_ Hall].
  apply sort_elem_of. rewrite <- Hresolve. apply (Hall item Hyield).
  unfold selects. rewrite Hrec. apply select_recursive_true.
  split; [exact Hhid|]. split; [|split; [|exact Hy]].
  - unfold is_symlink. now rewrite Hl.
  - unfold is_file. now rewrite Hs.
Qed.

(** ** The derived views of a result *)

Lemma append_cons (a : ascii) (s t : string) :
  (String a s ++ t)%string = String a (s ++ t)%string.
Proof. reflexivity. Qed.

Lemma has_slash_append (s t : string) :
  has_slash (s ++ t)%string = has_slash s || has_slash t.
Proof.
  induction s as [|c s IH]; simpl; [reflexivity|].
  rewrite IH. now rewrite orb_assoc.
Qed.

Lemma append_slash_inj (c1 c2 s1 s2 : string) :
  has_slash c1 = false -> has_slash c2 = false ->
  (c1 ++ "/" ++ s1)%string = (c2 ++ "/" ++ s2)%string ->
  c1 = c2 /\ s1 = s2.
Proof.
  revert c2. induction c1 as [|a c1 IH]; intros [|b c2] H1 H2 H; cbn in *.
  - injection H as H. auto.
  - injection H as Hb _. subst b. discriminate H2.
  - injection H as Ha _. subst a. discriminate H1.
  - injection H as <- H.
    apply orb_false_iff in H1 as [_ H1]. apply orb_false_iff in H2 as [_ H2].
    destruct (IH c2 H1 H2 H) as [-> ->]. auto.
Qed.

Lemma join_parts_cons (c : string) (p : Path) :
  p <> [] -> PurePath.join_parts (c :: p) = (c ++ "/" ++ PurePath.join_parts p)%string.
Proof. destruct p; [congruence | reflexivity]. Qed.

(** Paths made of valid names are told apart by their rendering. *)
Lemma join_parts_inj (p q : Path) :
  Forall valid_name p -> Forall valid_name q ->
  PurePath.join_parts p = PurePath.join_parts q -> p = q.
Proof.
  revert q. induction p as [|c p IH]; intros q Hp Hq H.
  - destruct q as [|c' q]; [reflexivity|]. exfalso.
    apply Forall_cons in Hq as [[Hne _] _].
    destruct q; [cbn in H; congruence|].
    rewrite join_parts_cons in H by discriminate.
    destruct c'; [congruence | rewrite append_cons in H; discriminate H].
  - apply Forall_cons in Hp as [[Hne Hs] Hp].
    destruct q as [|c' q].
    + exfalso. destruct p; [cbn in H; congruence|].
      rewrite join_parts_cons in H by discriminate.
      destruct c; [congruence | rewrite append_cons in H; discriminate H].
    + apply Forall_cons in Hq as [[Hne' Hs'] Hq].
      destruct p as [|c1 p]; destruct q as [|c1' q].
      * cbn in H. now subst.
      * exfalso. rewrite (join_parts_cons c' (c1' :: q)) in H by discriminate.
        change (PurePath.join_parts [c]) with c in H. subst c.
        rewrite has_slash_append in Hs. cbn in Hs.
        rewrite orb_true_r in Hs. discriminate Hs.
      * exfalso. rewrite (join_parts_cons c (c1 :: p)) in H by discriminate.
        change (PurePath.join_parts [c']) with c' in H. subst c'.
        rewrite has_slash_append in Hs'. cbn in Hs'.
        rewrite orb_true_r in Hs'. discriminate Hs'.
      * rewrite !join_parts_cons in H by discriminate.
        destruct (append_slash_inj _ _ _ _ Hs Hs' H) as [-> Hrest].
        f_equal. now apply IH.
Qed.

Lemma valid_names_entry (l : option exn) (entries : list (string * node))
    (c : string) (child : node) :
  valid_names (Dir l entries) -> (c, child) ∈ entries ->
  valid_name c /\ valid_names child.
Proof.
  simpl. induction entries as [|[c' n'] es IH]; intros Hall Hin; [inversion Hin|].
  destruct Hall as (Hc & Hn & Hall).
  apply elem_of_cons in Hin as [Heq|Hin]; [injection Heq as -> ->; auto|].
  now apply IH.
Qed.

Lemma descend_valid_names (n : node) :
  forall (p : list string) (m : node),
    descend n p = Some m -> valid_names n -> Forall valid_name p.
Proof.
  intros p. revert n. induction p as [|c p IH]; intros n m Hd Hv; [constructor|].
  simpl in Hd. destruct n as [| |l entries|]; try discriminate Hd.
  destruct (assoc c entries) as [n1|] eqn:Ec; [|discriminate Hd].
  destruct (valid_names_entry _ _ _ _ Hv (assoc_elem_of _ _ _ Ec)) as [Hc Hn1].
  constructor; [exact Hc | exact (IH _ _ Hd Hn1)].
Qed.

(** X6. The JSON view of a scan holds one string per reported file, in the
    order of the files, and, where the entries of the tree bear valid names
    (non-empty, without a slash), no string twice.  The scan returns a
    result unless it lets through an exception that is not an [OSError]. *)
Theorem to_json_array_no_duplicates (fs : node) (options : ScanOptions) :
  valid_names fs ->
  (exists r,
     scan_directory fs options = Returned r
     /\ List.length (to_json_array r) = count r
     /\ (forall i f, files r !! i = Some f ->
           to_json_array r !! i = Some (PurePath.str f))
     /\ NoDup (to_json_array r))
  \/ escapes fs options.
Proof.
  intros Hv.
  destruct (scan_directory_cases fs options) as [(r & Hr)|Hesc]; [left|now right].
  destruct (scan_directory_files fs options r Hr) as (Hn & _ & Hf).
  exists r. split; [exact Hr|]. unfold to_json_array, count.
  split; [apply length_map|]. split.
  - intros i f Hi. change (List.map PurePath.str (files r)) with (PurePath.str <$> files r).
    rewrite list_lookup_fmap, Hi. reflexivity.
  - change (List.map PurePath.str (files r)) with (PurePath.str <$> files r).
    apply NoDup_fmap_2_strong; [|exact Hn].
    assert (Hvalid : forall f, f ∈ files r -> Forall valid_name f).
    { intros f H. destruct (Hf f H) as (item & _ & Hsel & ->).
      assert (Hreg : is_file fs item = Returned true).
      { unfold selects in Hsel. destruct (recursive options).
        - now apply select_recursive_true in Hsel.
        - now apply select_top_level_true in Hsel. }
      apply is_file_stat in Hreg.
      exact (descend_valid_names _ _ _ (stat_found_descend _ _ _ _ Hreg) Hv). }
    intros a b Ha Hb Heq. unfold PurePath.str in Heq. simpl in Heq.
    injection Heq as Heq. apply join_parts_inj; auto.
Qed.

(** X7. A scan never reports more files than the traversal yielded
    entries, and [has_errors] tells exactly whether the loop was cut short
    by an exception.  The scan returns a result unless it lets through an
    exception that is not an [OSError]. *)
Theorem count_and_has_errors (fs : node) (options : ScanOptions) :
  (exists r,
     scan_directory fs options = Returned r
     /\ count r <= List.length (yielded (traversal fs options))
     /\ (has_errors r = true <->
         exists st e, scan_loop fs options initial_state = (st, Raised e))
     /\ (has_errors r = false <->
         exists st, scan_loop fs options initial_state = (st, Returned tt)))
  \/ escapes fs options.
Proof.
  destruct (scan_directory_cases fs options) as [(r & Hr)|Hesc]; [left|now right].
  destruct (scan_directory_returned _ _ _ Hr) as (st & out & Hloop & Hres & _).
  destruct (scan_directory_files fs options r Hr) as (Hn & _ & Hf).
  exists r. split; [exact Hr|]. split.
  - unfold count.
    assert (Hsub : files r ⊆ resolve fs <$> yielded (traversal fs options)).
    { intros f H. destruct (Hf f H) as (item & Hi & _ & ->).
      apply list_elem_of_fmap. eauto. }
    pose proof (submseteq_length _ _ (NoDup_submseteq _ _ Hn Hsub)) as Hlen.
    rewrite length_fmap in Hlen. exact Hlen.
  - rewrite Hres. unfold has_errors. simpl.
    rewrite Hloop. destruct out as [[]|e]; simpl; split.
    + split; [discriminate|]. intros (st' & e & H). discriminate H.
    + split; [intros _; exists st; reflexivity | reflexivity].
    + split; [intros _; exists st, e; reflexivity | reflexivity].
    + split; [discriminate|]. intros (st' & H). discriminate H.
Qed.

(** ** The command *)











(** ** Independence of the enumeration order *)

Lemma sorted_head_least (x : Path) (l : list Path) :
  StronglySorted PurePath.lt (x :: l) ->
  forall y, y ∈ x :: l -> y = x \/ PurePath.lt x y.
Proof.
  intros Hs y Hy. apply StronglySorted_inv in Hs as [_ Hall].
  apply elem_of_cons in Hy as [->|Hy]; [now left|].
  right. rewrite Forall_forall in Hall. now apply Hall.
Qed.

(** Two strictly sorted lists with the same elements are the same list. *)
Lemma sorted_same_elements (l1 l2 : list Path) :
  StronglySorted PurePath.lt l1 -> StronglySorted PurePath.lt l2 ->
  (forall x, x ∈ l1 <-> x ∈ l2) -> l1 = l2.
Proof.
  revert l2. induction l1 as [|a l1 IH]; intros l2 H1 H2 Heq.
  - destruct l2 as [|b l2]; [reflexivity|].
    exfalso. assert (H : b ∈ []) by (apply Heq; left). inversion H.
  - destruct l2 as [|b l2].
    { exfalso. assert (H : a ∈ []) by (apply Heq; left). inversion H. }
    assert (Hab : a = b).
    { destruct (sorted_head_least _ _ H2 a) as [E|Hlt]; [apply Heq; left | exact E |].
      destruct (sorted_head_least _ _ H1 b) as [E|Hlt']; [apply Heq; left | now symmetry |].
      exfalso. exact (lt_asym _ _ Hlt Hlt'). }
    subst b. f_equal.
    pose proof (StronglySorted_inv H1) as [H1' Ha1].
    pose proof (StronglySorted_inv H2) as [H2' Ha2].
    rewrite Forall_forall in Ha1, Ha2.
    apply IH; [exact H1' | exact H2' |].
    intros x. split; intros Hx.
    + assert (Hin : x ∈ a :: l2) by (apply Heq; now right).
      apply elem_of_cons in Hin as [->|Hin]; [|exact Hin].
      exfalso. exact (lt_irrefl _ (Ha1 _ Hx)).
    + assert (Hin : x ∈ a :: l1) by (apply Heq; now right).
      apply elem_of_cons in Hin as [->|Hin]; [|exact Hin].
      exfalso. exact (lt_irrefl _ (Ha2 _ Hx)).
Qed.

(** X11. The sorted file list does not depend on the order in which the
    directory entries arrive: two enumerations of the same entries, in any
    order, that are scanned without failure leave the same [files] after
    the sort. *)
Theorem sorted_files_independent_of_order (fs : node) (options : ScanOptions)
    (items1 items2 : list Path) (st1 st2 : scan_state) :
  items1 ≡ₚ items2 ->
  for_each items1 (loop_body fs options) initial_state = (st1, Returned tt) ->
  for_each items2 (loop_body fs options) initial_state = (st2, Returned tt) ->
  sort (files (result st1)) = sort (files (result st2)).
Proof.
  intros Hperm H1 H2.
  pose proof (for_each_ok fs _ _ (loop_body_spec fs options) _ _ _ _ H1 initial_ok) as [Hn1 _].
  pose proof (for_each_ok fs _ _ (loop_body_spec fs options) _ _ _ _ H2 initial_ok) as [Hn2 _].
  apply sorted_same_elements; [now apply sort_sorted | now apply sort_sorted |].
  assert (Hchar : forall items st,
    for_each items (loop_body fs options) initial_state = (st, Returned tt) ->
    forall f, f ∈ files (result st) <->
      exists item, item ∈ items /\ selects fs options item = Returned true
                   /\ f = resolve fs item).
  { intros items st H f. split.
    - intros Hf.
      destruct (for_each_sound fs _ _ (loop_body_spec fs options) _ _ _ _ H initial_ok f Hf)
        as [Hin|Hex]; [inversion Hin | exact Hex].
    - intros (item & Hi & Hsel & ->).
      destruct (for_each_complete fs _ _ (loop_body_spec fs options) _ _ _ H initial_ok)
        as [_ Hall].
      now apply (Hall item Hi). }
  intros f. rewrite !sort_elem_of, (Hchar _ _ H1), (Hchar _ _ H2).
  split; intros (item & Hi & Hrest); exists item; (split; [|exact Hrest]).
  - now rewrite <- Hperm.
  - now rewrite Hperm.
Qed.

(** ** Instances of the further properties *)

Lemma fs_nested_unique_names : unique_names fs_nested.
Proof.
  simpl. repeat split; apply (bool_decide_unpack _); vm_compute; exact I.
Defined.

Lemma fs_nested_valid_names : valid_names fs_nested.
Proof. simpl. unfold valid_name. repeat split; discriminate. Defined.

Lemma fs_nested_permitted : permitted fs_nested.
Proof. simpl. repeat split; intros e H; discriminate H. Defined.

Lemma validated_options_are_canonical_witness :
  new_ScanOptions fs_cycle ["r"; "loop"; "sub"] true Human Info
    = Valid (options_for ["r"; "sub"] true)
  /\ resolve fs_cycle ["r"; "sub"] = ["r"; "sub"]
  /\ new_ScanOptions fs_cycle ["r"; "sub"] true Human Info
     = Valid (options_for ["r"; "sub"] true).
Proof.
  assert (H : new_ScanOptions fs_cycle ["r"; "loop"; "sub"] true Human Info
              = Valid (options_for ["r"; "sub"] true)) by (vm_compute; reflexivity).
  split; [exact H|].
  exact (proj2 (validated_options_are_canonical _ _ _ _ _ _ H)).
Defined.

Lemma recursive_scan_reports_entries_below_root_witness :
  new_ScanOptions fs_nested ["r"] true Human Info = Valid (options_for ["r"] true)
  /\ unique_names fs_nested
  /\ exists r,
       scan_directory fs_nested (options_for ["r"] true) = Returned r
       /\ forall f, f ∈ files r -> descend fs_nested f = Some File.
Proof.
  assert (H : new_ScanOptions fs_nested ["r"] true Human Info
              = Valid (options_for ["r"] true)) by (vm_compute; reflexivity).
  split; [exact H|]. split; [exact fs_nested_unique_names|].
  destruct (recursive_scan_reports_entries_below_root _ _ _ _ _ H fs_nested_unique_names)
    as [(r & Hr & Hf) | (e & He & _)].
  - exists r. split; [exact Hr|]. intros f Hin. exact (proj1 (proj2 (proj2 (Hf f Hin)))).
  - exfalso. vm_compute in He. discriminate He.
Defined.

Lemma recursive_scan_complete_witness :
  new_ScanOptions fs_nested ["r"] true Human Info = Valid (options_for ["r"] true)
  /\ permitted fs_nested
  /\ exists r,
       scan_directory fs_nested (options_for ["r"] true) = Returned r
       /\ errors r = []
       /\ ["r"; "cluster1"; "production"; "app3.yml"] ∈ files r.
Proof.
  assert (H : new_ScanOptions fs_nested ["r"] true Human Info
              = Valid (options_for ["r"] true)) by (vm_compute; reflexivity).
  split; [exact H|]. split; [exact fs_nested_permitted|].
  eexists. split; [exact scenario_B|]. split; [reflexivity|].
  apply (recursive_scan_complete _ _ _ _ _ _ H fs_nested_permitted scenario_B eq_refl
           ["cluster1"; "production"; "app3.yml"]);
    [discriminate | reflexivity | reflexivity | reflexivity].
Defined.

Lemma to_json_array_no_duplicates_witness :
  valid_names fs_nested
  /\ exists r,
       scan_directory fs_nested (options_for ["r"] true) = Returned r
       /\ NoDup (to_json_array r).
Proof.
  split; [exact fs_nested_valid_names|].
  destruct (to_json_array_no_duplicates fs_nested (options_for ["r"] true)
              fs_nested_valid_names) as [(r & Hr & _ & _ & Hn) | (e & He & _)].
  - exists r. split; [exact Hr | exact Hn].
  - exfalso. vm_compute in He. discriminate He.
Defined.



Lemma sorted_files_independent_of_order_witness :
  [["r"; "app1.yaml"]; ["r"; "app2.yml"]] ≡ₚ [["r"; "app2.yml"]; ["r"; "app1.yaml"]]
  /\ sort (files (result (fst (for_each [["r"; "app1.yaml"]; ["r"; "app2.yml"]]
              (loop_body fs_flat (options_for ["r"] false)) initial_state))))
     = sort (files (result (fst (for_each [["r"; "app2.yml"]; ["r"; "app1.yaml"]]
              (loop_body fs_flat (options_for ["r"] false)) initial_state)))).
Proof.
  split; [apply perm_swap|].
  destruct (for_each [["r"; "app1.yaml"]; ["r"; "app2.yml"]]
              (loop_body fs_flat (options_for ["r"] false)) initial_state)
    as [st1 out1] eqn:E1.
  destruct (for_each [["r"; "app2.yml"]; ["r"; "app1.yaml"]]
              (loop_body fs_flat (options_for ["r"] false)) initial_state)
    as [st2 out2] eqn:E2.
  assert (H1 : out1 = Returned tt)
    by (apply (f_equal snd) in E1; vm_compute in E1; congruence).
  assert (H2 : out2 = Returned tt)
    by (apply (f_equal snd) in E2; vm_compute in E2; congruence).
  subst out1 out2.
  exact (sorted_files_independent_of_order fs_flat (options_for ["r"] false) _ _ _ _
           (perm_swap _ _ _) E1 E2).
Defined.
